(** * kingdon: sparse multivectors and symbolic operator derivation

    A shallow embedding of [kingdon/multivector.py] (the [MultiVector] value)
    and [kingdon/codegen.py] (the operator derivations), with the properties
    of the specification stated and proved over it.

    Layout:
    - Python results and exceptions;
    - insertion-ordered dictionaries ([dict], [defaultdict(int)]);
    - the coefficient backend (numbers or sympy expressions) as a class;
    - the algebra descriptor as a record (it lives outside the two files);
    - [MultiVector] and its methods;
    - the derivations [codegen_gp], [codegen_acp], [codegen_inv];
    - concrete backends and algebras used to run the definitions;
    - the statements of the specification, as definitions;
    - the rest of the two files: reversion, grade selection, the
      constructor, the inner and outer products, the commutator and the
      composite derivations;
    - the theorems, first those of the specification, then further
      properties of the code. *)

From Stdlib Require Import ZArith NArith List String Bool Lia QArith.
From Stdlib Require Import DecimalString.
Import ListNotations.
Open Scope Z_scope.

(* ------------------------------------------------------------------ *)
(** ** Python results *)

(** The exception classes the two files can raise, explicitly or through
    the interpreter. *)
Inductive exc_class : Type :=
| KeyError | ValueError | TypeError | AttributeError | IndexError
| UnboundLocalError | ZeroDivisionError | NotImplementedError
| Exception.

(** A Python call either returns a value or raises an exception of some
    class, with a message ([EmptyString] when the interpreter raises). *)
Inductive result (A : Type) : Type :=
| Ok (a : A)
| Raise (c : exc_class) (msg : string).
Arguments Ok {A} a.
Arguments Raise {A} c msg.

Definition bind {A B : Type} (m : result A) (f : A -> result B) : result B :=
  match m with
  | Ok a => f a
  | Raise c msg => Raise c msg
  end.

Notation "x <- m ;; k" := (bind m (fun x => k))
  (at level 61, m at next level, right associativity).

Definition raise_ {A : Type} (c : exc_class) : result A := Raise c EmptyString.

Definition is_ok {A : Type} (m : result A) : bool :=
  match m with Ok _ => true | Raise _ _ => false end.

(* ------------------------------------------------------------------ *)
(** ** Insertion-ordered dictionaries with integer keys *)

Section PyDict.
Context {V : Type}.

(** A Python [dict]: entries in insertion order, keys pairwise distinct
    when built through [dict_set]. *)
Definition dict : Type := list (Z * V).

Fixpoint dict_get (k : Z) (m : dict) : option V :=
  match m with
  | [] => None
  | (k', v) :: m' => if k' =? k then Some v else dict_get k m'
  end.

(** [k in m] *)
Definition dict_mem (k : Z) (m : dict) : bool :=
  match dict_get k m with Some _ => true | None => false end.

(** [m[k] = v]: overwrite in place, or append a new entry. *)
Fixpoint dict_set (k : Z) (v : V) (m : dict) : dict :=
  match m with
  | [] => [(k, v)]
  | (k', v') :: m' =>
      if k' =? k then (k', v) :: m' else (k', v') :: dict_set k v m'
  end.

(** [dict(items)] *)
Definition dict_of_items (l : list (Z * V)) : dict :=
  fold_left (fun m kv => dict_set (fst kv) (snd kv) m) l [].

Definition dict_keys (m : dict) : list Z := map fst m.
Definition dict_values (m : dict) : list V := map snd m.
End PyDict.
Arguments dict V : clear implicits.

(** A dict comprehension [{key(k, v): val(k, v) for k, v in l if ...}]:
    [f] returns [None] for an entry the condition rejects, and each kept
    entry is stored in turn. *)
Definition comp_step {V W : Type} (f : Z -> V -> option (Z * W))
    (out : dict W) (kv : Z * V) : dict W :=
  match f (fst kv) (snd kv) with
  | Some (k', w) => dict_set k' w out
  | None => out
  end.

Definition dict_comp {V W : Type} (f : Z -> V -> option (Z * W))
    (l : list (Z * V)) : dict W :=
  fold_left (comp_step f) l [].

(* ------------------------------------------------------------------ *)
(** ** Small Python builtins *)

(** [bin(k).count('1')] *)
Fixpoint popcount_pos (p : positive) : Z :=
  match p with
  | xH => 1
  | xO q => popcount_pos q
  | xI q => 1 + popcount_pos q
  end.

Definition popcount (k : Z) : Z :=
  match k with
  | Z0 => 0
  | Zpos p | Zneg p => popcount_pos p
  end.

(** [tuple.index]: position of the first occurrence. *)
Fixpoint index_of (k : Z) (l : list Z) : option nat :=
  match l with
  | [] => None
  | k' :: l' =>
      if k' =? k then Some O
      else match index_of k l' with Some n => Some (S n) | None => None end
  end.

(** [k in tuple] *)
Definition mem (k : Z) (l : list Z) : bool :=
  existsb (fun k' => k' =? k) l.

(** Insertion into a strictly increasing list; [sorted(set(...))] is a
    fold of it. *)
Fixpoint insert_uniq (g : Z) (l : list Z) : list Z :=
  match l with
  | [] => [g]
  | h :: t =>
      if g <? h then g :: l
      else if g =? h then l
      else h :: insert_uniq g t
  end.

Definition sorted_set (l : list Z) : list Z :=
  fold_right insert_uniq [] l.

Definition list_eqb (a b : list Z) : bool :=
  if list_eq_dec Z.eq_dec a b then true else false.

(** [itertools.product(a, b)]: the first component varies slowest. *)
Definition product {A B : Type} (a : list A) (b : list B) : list (A * B) :=
  flat_map (fun x => map (fun y => (x, y)) b) a.

(** [repr] of an integer and of a tuple of integers, for the messages
    built with f-strings. *)
Definition repr_int (z : Z) : string := NilZero.string_of_int (Z.to_int z).

Definition repr_tuple (l : list Z) : string :=
  match l with
  | [] => "()"
  | [a] => "(" ++ repr_int a ++ ",)"
  | a :: l' =>
      "(" ++ repr_int a
          ++ String.concat EmptyString (map (fun b => ", " ++ repr_int b) l')
          ++ ")"
  end%string.

(** Insertion sort on names, for [sorted(..., key=lambda x: x.name)]. *)
Fixpoint insert_name (s : string) (l : list string) : list string :=
  match l with
  | [] => [s]
  | h :: t => if String.leb s h then s :: l else h :: insert_name s t
  end.

Definition sorted_names (l : list string) : list string :=
  fold_right insert_name [] l.

(* ------------------------------------------------------------------ *)
(** ** The coefficient backend *)

(** Coefficients are Python numbers or sympy expressions.  The operations
    the two files apply to them are the interface below; the symbolic
    engine behind [simplify] is external. *)
Class Backend (E : Type) : Type := {
  (** a Python [int] literal used as a coefficient *)
  of_int : Z -> E;
  add : E -> E -> E;
  mul : E -> E -> E;
  neg : E -> E;
  (** true division [a / b] *)
  div : E -> E -> result E;
  (** [sympy.simplify] *)
  simplify : E -> E;
  (** [bool(e)]: false exactly on a zero *)
  truthy : E -> bool;
  (** the attribute [e.free_symbols]; [None] when the object has no such
      attribute (a plain Python number) *)
  free_symbols : E -> option (list string)
}.

(** Union of two symbol sets, [tot | x]. *)
Fixpoint set_union (a b : list string) : list string :=
  match b with
  | [] => a
  | s :: b' =>
      let a' := set_union a b' in
      if existsb (String.eqb s) a' then a' else s :: a'
  end.

(* ------------------------------------------------------------------ *)
(** ** Multivectors and the algebra descriptor *)

(** [MultiVector.fromkeysvalues(algebra, keys, values)]: the two aligned
    tuples.  The [algebra] field is the descriptor every definition below
    takes as [A]. *)
Record MultiVector (E : Type) : Type := fromkeysvalues {
  _keys : list Z;
  _values : list E
}.
Arguments fromkeysvalues {E} _ _.
Arguments _keys {E} _.
Arguments _values {E} _.

(** The right operand of a binary operator: a multivector, or anything
    else (a coefficient). *)
Inductive operand (E : Type) : Type :=
| OpMV (m : MultiVector E)
| OpScalar (c : E).
Arguments OpMV {E} m.
Arguments OpScalar {E} c.

(** What [v[item]] and [item in v] receive: a key in binary
    representation or a canonical name. *)
Inductive item : Type :=
| KInt (k : Z)
| KStr (s : string).

(** The algebra descriptor, consumed read-only.  [kingdon/algebra.py] is
    not among the sources: its tables and the operators the multivector
    delegates to it are fields here. *)
Record Algebra (E : Type) : Type := {
  (** dimension [algebra.d] and number of degenerate dimensions [algebra.r] *)
  d : N;
  r : N;
  (** [len(algebra)] *)
  alg_len : Z;
  (** [algebra.signs[ei, ej]] *)
  signs : Z -> Z -> Z;
  (** [algebra.bin2canon]: key to name *)
  bin2canon : Z -> option string;
  (** [algebra.canon2bin]: name to key *)
  canon2bin : string -> option Z;
  (** [algebra.indices_for_grades[grades]] *)
  indices_for_grades : list Z -> list Z;
  (** [algebra.pss] *)
  pss : MultiVector E;
  (** feature flags *)
  cse : bool;
  numba : bool;
  (** [algebra.gp(x, y)], [algebra.div(x, y)], [algebra.multivector(vals)] *)
  alg_gp : MultiVector E -> MultiVector E -> result (MultiVector E);
  alg_div : MultiVector E -> operand E -> result (MultiVector E);
  multivector : dict E -> result (MultiVector E)
}.
Arguments d {E} _.
Arguments r {E} _.
Arguments alg_len {E} _.
Arguments signs {E} _ _ _.
Arguments bin2canon {E} _ _.
Arguments canon2bin {E} _ _.
Arguments indices_for_grades {E} _ _.
Arguments pss {E} _.
Arguments cse {E} _.
Arguments numba {E} _.
Arguments alg_gp {E} _ _ _.
Arguments alg_div {E} _ _ _.
Arguments multivector {E} _ _.

Section MultiVectorMethods.
Context {E : Type} `{Backend E}.
Variable A : Algebra E.

(** The data-model invariant: as many keys as values, keys distinct. *)
Fixpoint distinct (l : list Z) : bool :=
  match l with
  | [] => true
  | k :: l' => negb (mem k l') && distinct l'
  end.

Definition well_formed (v : MultiVector E) : bool :=
  Nat.eqb (List.length (_keys v)) (List.length (_values v))
  && distinct (_keys v).

(** [self.items()]: [zip(self._keys, self._values)] *)
Definition items (v : MultiVector E) : list (Z * E) :=
  combine (_keys v) (_values v).

(** [len(self)], which is also the truth value of a multivector *)
Definition len (v : MultiVector E) : nat := List.length (_values v).

(** [self.grades] *)
Definition grades (v : MultiVector E) : list Z :=
  sorted_set (map popcount (_keys v)).

(** [MultiVector.__new__] on a mapping and the default grades: the keys
    and values are the mapping's items (an empty mapping cannot be
    unzipped), and every key must lie in the algebra. *)
Definition MultiVector_new (vals : dict E) : result (MultiVector E) :=
  match vals with
  | [] => raise_ ValueError
  | _ =>
      let keys := dict_keys vals in
      let all_grades := map Z.of_nat (seq 0 (S (N.to_nat (d A)))) in
      if forallb (fun k => mem k (indices_for_grades A all_grades)) keys
      then Ok (fromkeysvalues keys (dict_values vals))
      else Raise ValueError
             ("All keys should be of grades " ++ repr_tuple all_grades ++ ".")
  end.

(** [-self] on tuple values *)
Definition mv_neg (v : MultiVector E) : MultiVector E :=
  fromkeysvalues (_keys v) (map neg (_values v)).

(** The body of the loop of [__add__]:
    [if k in vals: vals[k] += v else: vals[k] = v] *)
Definition add_entry (vals : dict E) (kv : Z * E) : dict E :=
  match dict_get (fst kv) vals with
  | Some u => dict_set (fst kv) (add u (snd kv)) vals
  | None => dict_set (fst kv) (snd kv) vals
  end.

(** [self + other]: anything that is not a multivector is wrapped as
    the scalar multivector with keys [(0,)]. *)
Definition mv_add (self : MultiVector E) (other : operand E)
  : MultiVector E :=
  let other :=
    match other with
    | OpMV m => m
    | OpScalar c => fromkeysvalues [0] [c]
    end in
  let vals := fold_left add_entry (items other) (dict_of_items (items self)) in
  fromkeysvalues (dict_keys vals) (dict_values vals).

(** [-other] for either kind of operand *)
Definition operand_neg (other : operand E) : operand E :=
  match other with
  | OpMV m => OpMV (mv_neg m)
  | OpScalar c => OpScalar (neg c)
  end.

(** [self - other] *)
Definition mv_sub (self : MultiVector E) (other : operand E)
  : MultiVector E :=
  mv_add self (operand_neg other).

(** [self / other] and [self * other] go to the descriptor. *)
Definition mv_truediv (self : MultiVector E) (other : operand E)
  : result (MultiVector E) :=
  alg_div A self other.

Definition mv_mul (self other : MultiVector E) : result (MultiVector E) :=
  alg_gp A self other.

(** [key if key in bin2canon else canon2bin[key]]: an integer that is
    not a key of [bin2canon], like a name that is not one of
    [canon2bin], fails the second lookup. *)
Definition resolve (it : item) : result Z :=
  match it with
  | KInt k =>
      match bin2canon A k with
      | Some _ => Ok k
      | None => raise_ KeyError
      end
  | KStr s =>
      match canon2bin A s with
      | Some k => Ok k
      | None => raise_ KeyError
      end
  end.

(** [self[item]] for an item that is neither a tuple nor a slice: no
    subslices, one key. *)
Definition getitem (self : MultiVector E) (it : item) : result E :=
  key <- resolve it ;;
  match index_of key (_keys self) with
  | None => Ok (of_int 0)
  | Some n =>
      match nth_error (_values self) n with
      | Some v => Ok v
      | None => raise_ IndexError
      end
  end.

(** [item in self] *)
Definition contains (self : MultiVector E) (it : item) : result bool :=
  key <- resolve it ;;
  Ok (mem key (_keys self)).

(** [self.free_symbols]: [reduce] without an initial value over the
    [free_symbols] attribute of each coefficient. *)
Definition attr_free_symbols (c : E) : result (list string) :=
  match free_symbols c with
  | Some s => Ok s
  | None => raise_ AttributeError
  end.

Fixpoint reduce_union (tot : list string) (cs : list E)
  : result (list string) :=
  match cs with
  | [] => Ok tot
  | c :: cs' =>
      s <- attr_free_symbols c ;;
      reduce_union (set_union tot s) cs'
  end.

Definition mv_free_symbols (self : MultiVector E) : result (list string) :=
  match _values self with
  | [] => raise_ TypeError
  | c :: cs =>
      s <- attr_free_symbols c ;;
      reduce_union s cs
  end.
(** [self.dual(kind)].  In the two tests [and] binds tighter than
    [or]. *)
Definition dual (self : MultiVector E) (kind : string)
  : result (MultiVector E) :=
  if (kind =? "polarity")%string
     || ((kind =? "auto")%string && (r A =? 0)%N)
  then mv_truediv self (OpMV (pss A))
  else if (kind =? "hodge")%string
          || ((kind =? "auto")%string && (r A =? 1)%N)
  then multivector A
         (dict_comp
            (fun eI val =>
               Some (alg_len A - 1 - eI,
                     mul (of_int (signs A eI (alg_len A - 1 - eI))) val))
            (items self))
  else if (kind =? "auto")%string
  then Raise Exception
         "Cannot select a suitable dual in auto mode for this algebra."
  else Raise ValueError ("No dual found for kind=" ++ kind ++ ".").

(** [self.undual(kind)] *)
Definition undual (self : MultiVector E) (kind : string)
  : result (MultiVector E) :=
  if (kind =? "polarity")%string
     || ((kind =? "auto")%string && (r A =? 0)%N)
  then mv_mul self (pss A)
  else if (kind =? "hodge")%string
          || ((kind =? "auto")%string && (r A =? 1)%N)
  then multivector A
         (dict_comp
            (fun eI val =>
               Some (alg_len A - 1 - eI,
                     mul (of_int (signs A (alg_len A - 1 - eI) eI)) val))
            (items self))
  else if (kind =? "auto")%string
  then Raise Exception
         "Cannot select a suitable undual in auto mode for this algebra."
  else Raise ValueError ("No undual found for kind=" ++ kind ++ ".").
End MultiVectorMethods.

(* ------------------------------------------------------------------ *)
(** ** The specializer's output *)

(** The parameter list handed to [lambdify]: the sorted free symbols of
    one multivector, or the coefficient lists of the operands. *)
Inductive lambda_params (E : Type) : Type :=
| ParamSymbols (names : list string)
| ParamOperands (groups : list (list E)).
Arguments ParamSymbols {E} names.
Arguments ParamOperands {E} groups.

(** [lambdify(params, body, cse=...)], wrapped by [njit] when [jit]. *)
Record Lambda (E : Type) : Type := {
  lam_params : lambda_params E;
  lam_body : list E;
  lam_cse : bool;
  lam_jit : bool
}.
Arguments lam_params {E} _.
Arguments lam_body {E} _.
Arguments lam_cse {E} _.
Arguments lam_jit {E} _.

(** What a derivation returns: the symbolic mapping, the pair of output
    keys and callable, or (for [codegen_acp]) an exception class handed
    back as an ordinary object. *)
Inductive codegen_out (E : Type) : Type :=
| Symbolic (res : dict E)
| Compiled (keys : list Z) (func : Lambda E)
| ClassObject (c : exc_class).
Arguments Symbolic {E} res.
Arguments Compiled {E} keys func.
Arguments ClassObject {E} c.

Section Codegen.
Context {E : Type} `{Backend E}.
Variable A : Algebra E.
(** Running a compiled callable on arguments is the numeric backend's
    business. *)
Variable apply_lambda : Lambda E -> list E -> result (list E).

(** The attribute read [x.vals] of codegen.py.  The class
    [MultiVector] declares the fields [algebra], [_values] and [_keys]
    and the methods [keys()], [values()] and [items()]; it has no
    attribute, property or [__getattr__] that answers to [vals].  On a
    multivector the read therefore raises [AttributeError], whatever
    the multivector holds. *)
Definition vals (x : MultiVector E) : result (dict E) :=
  raise_ AttributeError.

(** [_lambdify_binary(x, y, vals)]: the parameters are read from the
    operands first. *)
Definition _lambdify_binary (x y : MultiVector E) (res : dict E)
  : result (list Z * Lambda E) :=
  xs <- vals x ;;
  ys <- vals y ;;
  Ok (dict_keys res,
      {| lam_params := ParamOperands [dict_values xs; dict_values ys];
         lam_body := dict_values res;
         lam_cse := cse A;
         lam_jit := numba A |}).

(** [_lambdify_unary(x, vals)] *)
Definition _lambdify_unary (x : MultiVector E) (res : dict E)
  : result (list Z * Lambda E) :=
  xs <- vals x ;;
  Ok (dict_keys res,
      {| lam_params := ParamOperands [dict_values xs];
         lam_body := dict_values res;
         lam_cse := cse A;
         lam_jit := numba A |}).

(** [_lambdify_mv(free_symbols, mv)]: the body [list(mv.vals.values())]
    is evaluated before [lambdify] is called, the keys after it. *)
Definition _lambdify_mv (symbols : list string) (mv : MultiVector E)
  : result (list Z * Lambda E) :=
  body <- vals mv ;;
  keys <- vals mv ;;
  Ok (dict_keys keys,
      {| lam_params := ParamSymbols symbols;
         lam_body := dict_values body;
         lam_cse := cse A;
         lam_jit := numba A |}).

(** Calling [self] on positional arguments [args]: [self._callable]
    is [_lambdify_mv] on the sorted free symbols. *)
Definition mv_call (self : MultiVector E) (args : list E)
  : result (MultiVector E) :=
  fs <- mv_free_symbols self ;;
  match fs with
  | [] => Ok self
  | _ =>
      kf <- _lambdify_mv (sorted_names fs) self ;;
      values <- apply_lambda (snd kf) args ;;
      Ok (fromkeysvalues (fst kf) values)
  end.

(** The body of the accumulation loop of [codegen_gp]: [res_vals] is a
    [defaultdict(int)], so a first contribution is added to the
    integer 0. *)
Definition gp_step (res : dict E) (p : (Z * E) * (Z * E)) : dict E :=
  let '((ei, vi), (ej, vj)) := p in
  if negb (signs A ei ej =? 0) then
    let cur := match dict_get (Z.lxor ei ej) res with
               | Some e => e
               | None => of_int 0
               end in
    dict_set (Z.lxor ei ej)
             (add cur (mul (mul (of_int (signs A ei ej)) vi) vj)) res
  else res.

(** The loop itself, over [product(mx.items(), my.items())] for the
    two mappings [mx] and [my] that the reads [x.vals] and [y.vals]
    hand to it. *)
Definition gp_accumulate (mx my : dict E) : dict E :=
  fold_left gp_step (product mx my) [].

(** [{k: simp_expr for k, expr in res_vals.items()
      if (simp_expr := simplify(expr))}] *)
Definition drop_zeros (res : dict E) : dict E :=
  dict_comp (fun k expr =>
               let simp_expr := simplify expr in
               if truthy simp_expr then Some (k, simp_expr) else None)
            res.

(** [codegen_gp(x, y, symbolic)]: the two reads come first, [x.vals]
    before [y.vals]. *)
Definition codegen_gp (x y : MultiVector E) (symbolic : bool)
  : result (codegen_out E) :=
  mx <- vals x ;;
  my <- vals y ;;
  let res_vals := drop_zeros (gp_accumulate mx my) in
  if symbolic then Ok (Symbolic res_vals)
  else kf <- _lambdify_binary x y res_vals ;;
       Ok (Compiled (fst kf) (snd kf)).

(** [codegen_acp]: the body is [return NotImplementedError]. *)
Definition codegen_acp (x y : MultiVector E) : result (codegen_out E) :=
  Ok (ClassObject NotImplementedError).

(** *** The inverse *)

(** [k = 2 ** ((x.algebra.d + 1) // 2)] *)
Definition inv_k : N := (2 ^ ((d A + 1) / 2))%N.

(** [x.algebra.multivector({k: simplify(v) for k, v in m.vals.items()})]:
    the comprehension, hence the read [m.vals], is evaluated before
    the call. *)
Definition simplify_all (m : MultiVector E) : result (MultiVector E) :=
  mv <- vals m ;;
  multivector A (dict_comp (fun k v => Some (k, simplify v)) mv).

(** [x_i.grades != (0,) and x_i] *)
Definition loop_test (x_i : MultiVector E) : bool :=
  negb (list_eqb (grades x_i) [0]) && negb (Nat.eqb (len x_i) 0).

(** The first two statements of the body of the [while]:
    [c_i = k * x_i[0] / i] and [adj_x = (x_i - c_i)]. *)
Definition inv_adjoint (x_i : MultiVector E) (i : Z)
  : result (MultiVector E) :=
  x0 <- getitem A x_i (KInt 0) ;;
  c_i <- div (mul (of_int (Z.of_N inv_k)) x0) (of_int i) ;;
  Ok (mv_sub x_i (OpScalar c_i)).

(** One pass through the body of the [while]: the new [adj_x] and the
    new [x_i]. *)
Definition inv_body (x x_i : MultiVector E) (i : Z)
  : result (MultiVector E * MultiVector E) :=
  adj_x <- inv_adjoint x_i i ;;
  adj_x <- simplify_all adj_x ;;
  x_next <- mv_mul A x adj_x ;;
  x_next <- simplify_all x_next ;;
  Ok (adj_x, x_next).

(** The [while] loop, run for at most [fuel] evaluations of its test;
    [None] when it is still running after that.  The state is [x_i],
    [i] and [adj_x], unbound until the body has run once. *)
Fixpoint inv_loop (fuel : nat) (x x_i : MultiVector E) (i : Z)
    (adj_x : option (MultiVector E))
  : option (result (MultiVector E * option (MultiVector E))) :=
  match fuel with
  | O => None
  | S fuel' =>
      if loop_test x_i then
        match inv_body x x_i i with
        | Ok (adj, x_next) => inv_loop fuel' x x_next (i + 1) (Some adj)
        | Raise c msg => Some (Raise c msg)
        end
      else Some (Ok (x_i, adj_x))
  end.

(** What follows the loop: [xinv = adj_x / x_i[0]] and
    [_lambdify_unary(x, xinv.vals)]. *)
Definition inv_finish (x x_i : MultiVector E)
    (adj_x : option (MultiVector E)) : result (list Z * Lambda E) :=
  match adj_x with
  | None => raise_ UnboundLocalError
  | Some adj =>
      x0 <- getitem A x_i (KInt 0) ;;
      xinv <- mv_truediv A adj (OpScalar x0) ;;
      res <- vals xinv ;;
      _lambdify_unary x res
  end.

Definition codegen_inv (fuel : nat) (x : MultiVector E)
  : option (result (list Z * Lambda E)) :=
  match inv_loop fuel x x 1 None with
  | None => None
  | Some (Raise c msg) => Some (Raise c msg)
  | Some (Ok (x_i, adj_x)) => Some (inv_finish x x_i adj_x)
  end.
End Codegen.

(* ------------------------------------------------------------------ *)
(** ** Concrete backends and algebras *)

(** Exact rational coefficients: the numeric fragment of the symbolic
    engine.  Every value is kept reduced, [simplify] reduces, a number is
    false exactly when it is zero, and a number has no free symbol.
    Division by zero is reported as [ZeroDivisionError]. *)
#[export] Instance RationalBackend : Backend Q := {|
  of_int := inject_Z;
  add := fun a b => Qred (a + b);
  mul := fun a b => Qred (a * b);
  neg := fun a => Qred (- a);
  div := fun a b =>
           if Qeq_bool b 0 then raise_ ZeroDivisionError
           else Ok (Qred (a / b));
  simplify := Qred;
  truthy := fun a => negb (Qeq_bool a 0);
  free_symbols := fun _ => Some []
|}.

Section Descriptors.
Context {E : Type} `{Backend E}.

(** Modelled from the spec: the descriptor's sign table is missing from
    the sources; "sign supplied by the descriptor from the metric and
    blade-reordering parity".  [sig] lists the squares of the basis
    vectors, bit [i] of a key standing for the [i]-th of them. *)
Fixpoint swaps_from (n : nat) (a b : Z) : Z :=
  match n with
  | O => 0
  | S n' =>
      let a' := Z.shiftr a 1 in
      popcount (Z.land a' b) + swaps_from n' a' b
  end.

Fixpoint metric_from (sig : list Z) (c : Z) : Z :=
  match sig with
  | [] => 1
  | s :: sig' =>
      (if Z.odd c then s else 1) * metric_from sig' (Z.shiftr c 1)
  end.

Definition blade_sign (sig : list Z) (a b : Z) : Z :=
  (if Z.even (swaps_from (List.length sig) a b) then 1 else -1)
  * metric_from sig (Z.land a b).

(** Modelled from the spec: the canonical-name table is missing from
    the sources; a key is "bijectively named", here [e] followed by the
    1-based indices of its basis vectors. *)
Fixpoint blade_digits (n : nat) (i : nat) (k : Z) : string :=
  match n with
  | O => EmptyString
  | S n' =>
      let rest := blade_digits n' (S i) (Z.shiftr k 1) in
      if Z.odd k
      then String (Ascii.ascii_of_nat (49 + i)) rest
      else rest
  end.

Definition blade_name (n : nat) (k : Z) : option string :=
  if (0 <=? k) && (k <? 2 ^ Z.of_nat n)
  then Some ("e" ++ blade_digits n 0 k)%string
  else None.

Definition all_keys (n : nat) : list Z :=
  map Z.of_nat (seq 0 (2 ^ n)).

Definition blade_key (n : nat) (s : string) : option Z :=
  find (fun k => match blade_name n k with
                 | Some s' => String.eqb s s'
                 | None => false
                 end) (all_keys n).

Fixpoint mapM {X Y : Type} (f : X -> result Y) (l : list X)
  : result (list Y) :=
  match l with
  | [] => Ok []
  | x :: l' => y <- f x ;; ys <- mapM f l' ;; Ok (y :: ys)
  end.

(** Modelled from the spec: the descriptor itself is missing from the
    sources.  The tables of the Clifford algebra with metric [sig]; the
    product, the mapping constructor and the division are supplied by
    the caller. *)
Definition descriptor (sig : list Z)
    (gp : MultiVector E -> MultiVector E -> result (MultiVector E))
    (dv : MultiVector E -> operand E -> result (MultiVector E))
    (mk : dict E -> result (MultiVector E)) : Algebra E :=
  let n := List.length sig in
  {| d := N.of_nat n;
     r := N.of_nat (List.length (filter (fun s => s =? 0) sig));
     alg_len := 2 ^ Z.of_nat n;
     signs := blade_sign sig;
     bin2canon := blade_name n;
     canon2bin := blade_key n;
     indices_for_grades :=
       fun gs => filter (fun k => mem (popcount k) gs) (all_keys n);
     pss := fromkeysvalues [2 ^ Z.of_nat n - 1] [of_int 1];
     cse := false;
     numba := false;
     alg_gp := gp;
     alg_div := dv;
     multivector := mk |}.

Definition tables (sig : list Z) : Algebra E :=
  descriptor sig (fun _ _ => raise_ NotImplementedError)
             (fun _ _ => raise_ NotImplementedError)
             (fun _ => raise_ NotImplementedError).

(** Modelled from the spec: [Algebra.div] is missing from the sources;
    division by a coefficient divides every value. *)
Definition div_values (x : MultiVector E) (other : operand E)
  : result (MultiVector E) :=
  match other with
  | OpScalar c =>
      vs <- mapM (fun v => div v c) (_values x) ;;
      Ok (fromkeysvalues (_keys x) vs)
  | OpMV _ => raise_ NotImplementedError
  end.

(** Modelled from the spec: the descriptor of the Clifford algebra with
    metric [sig], missing from the sources.  Its mapping constructor
    is the class constructor and its division divides every value.
    The product [Algebra.gp] is left out: nothing below depends on
    what it returns. *)
Definition numeric_algebra (sig : list Z) : Algebra E :=
  descriptor sig (fun _ _ => raise_ NotImplementedError) div_values
             (MultiVector_new (tables sig)).
End Descriptors.

(* ------------------------------------------------------------------ *)
(** ** The statements of the specification *)

Section Specification.
Context {E : Type} `{Backend E}.
Variable A : Algebra E.

(** How two lookups merge under [+]: a shared key holds the sum, a key
    of one side only keeps its value. *)
Definition merge (a b : option E) : option E :=
  match a, b with
  | Some u, Some w => Some (add u w)
  | Some u, None => Some u
  | None, _ => b
  end.

(** An item that resolves through neither table. *)
Definition unresolvable (it : item) : Prop :=
  match it with
  | KInt k => bin2canon A k = None
  | KStr s => canon2bin A s = None
  end.

(** The geometric product in the words of section 4.1, on the active
    entries of two operands given as mappings.  A pair of entries
    contributes under the key [k] when its sign is non-zero and its
    combined key [ei XOR ej] is [k]; what it contributes is
    [sign(ei, ej) * vi * vj]. *)
Definition gp_active (k : Z) (p : (Z * E) * (Z * E)) : bool :=
  negb (signs A (fst (fst p)) (fst (snd p)) =? 0)
  && (Z.lxor (fst (fst p)) (fst (snd p)) =? k).

Definition gp_term (p : (Z * E) * (Z * E)) : E :=
  mul (mul (of_int (signs A (fst (fst p)) (fst (snd p)))) (snd (fst p)))
      (snd (snd p)).

(** The contributions under [k]: each entry of [mx] with each entry of
    [my], the entries of [mx] varying slowest. *)
Definition gp_terms (mx my : dict E) (k : Z) : list E :=
  map gp_term (filter (gp_active k) (list_prod mx my)).

(** A slot of a [defaultdict(int)] after contributions [ts] were added
    to it: untouched without contributions, otherwise their sum on top
    of what it held, the integer 0 when it held nothing. *)
Definition from_zero (o : option E) : E :=
  match o with Some e => e | None => of_int 0 end.

Definition slot (o : option E) (ts : list E) : option E :=
  match ts with
  | [] => o
  | _ => Some (fold_left add ts (from_zero o))
  end.

(** The accumulated expression under a key, and what is left of it
    after simplification: nothing when it is zero. *)
Definition gp_entry (mx my : dict E) (k : Z) : option E :=
  match gp_terms mx my k with
  | [] => None
  | ts =>
      let s := simplify (fold_left add ts (of_int 0)) in
      if truthy s then Some s else None
  end.



End Specification.


(* ------------------------------------------------------------------ *)
(** ** Concrete inputs *)

(** Euclidean space of dimension 3: keys 0 = scalar, 1 = e1, 2 = e2,
    4 = e3, 3 = e12, 5 = e13, 6 = e23, 7 = e123. *)
Definition space : Algebra Q := numeric_algebra [1; 1; 1].


(** An algebra with two degenerate dimensions. *)
Definition doubly_degenerate : Algebra Q := numeric_algebra [0; 0; 1].

(* ------------------------------------------------------------------ *)
(** ** The rest of the multivector *)

(** A coefficient handed to the constructor: an expression or number, or
    a string still to be parsed. *)
Inductive pyvalue (E : Type) : Type :=
| VExpr (e : E)
| VStr (s : string).
Arguments VExpr {E} e.
Arguments VStr {E} s.

(** The [values] argument of the constructor: a mapping (its items, in
    order) or a sequence; [None] is the empty sequence. *)
Inductive values_arg (E : Type) : Type :=
| ValuesMapping (m : list (item * pyvalue E))
| ValuesSeq (vs : list (pyvalue E)).
Arguments ValuesMapping {E} m.
Arguments ValuesSeq {E} vs.

(** The [grades] argument of [grade]: one integer or a sequence. *)
Inductive grades_arg : Type :=
| GInt (g : Z)
| GSeq (gs : list Z).

(** [del m[k]] *)
Definition dict_del {V : Type} (k : Z) (m : dict V) : dict V :=
  filter (fun kv => negb (fst kv =? k)) m.

(** [s[1:]] *)
Definition tail_string (s : string) : string :=
  match s with
  | EmptyString => EmptyString
  | String _ s' => s'
  end.

Definition is_int (it : item) : bool :=
  match it with KInt _ => true | KStr _ => false end.

Definition int_of (it : item) : Z :=
  match it with KInt k => k | KStr _ => 0 end.

Section MoreMultiVector.
Context {E : Type} `{Backend E}.
Variable A : Algebra E.
(** [symbolcls(name)] and [sympify(text)] *)
Variable symbolcls : string -> E.
Variable sympify : string -> E.

(** [~self], the reversion *)
Definition mv_invert (self : MultiVector E) : MultiVector E :=
  fromkeysvalues
    (_keys self)
    (map (fun kv => mul (of_int ((-1) ^ (popcount (fst kv) / 2))) (snd kv))
         (items self)).

(** [self ** power] *)
Definition mv_pow (self : MultiVector E) (power : Z)
  : result (MultiVector E) :=
  if power =? 2 then alg_gp A self self else raise_ NotImplementedError.

(** The comprehension of [grade]:
    [{k: self[k] for k in indices if k in self.keys()}] *)
Fixpoint grade_fill (self : MultiVector E) (ks : list Z) (vals : dict E)
  : result (dict E) :=
  match ks with
  | [] => Ok vals
  | k :: ks' =>
      if mem k (_keys self) then
        v <- getitem A self (KInt k) ;;
        grade_fill self ks' (dict_set k v vals)
      else grade_fill self ks' vals
  end.

(** [self.grade(grades)] *)
Definition grade (self : MultiVector E) (grades : grades_arg)
  : result (MultiVector E) :=
  let grades := match grades with GInt g => [g] | GSeq gs => gs end in
  vals <- grade_fill self (indices_for_grades A grades) [] ;;
  Ok (fromkeysvalues (dict_keys vals) (dict_values vals)).

(** What [grade] keeps, in plain words: for each index in turn, the
    entry of [self] stored under it, when there is one. *)
Definition grade_entries (self : MultiVector E) (ks : list Z)
  : list (Z * E) :=
  flat_map (fun k => match dict_get k (items self) with
                     | Some c => [(k, c)]
                     | None => []
                     end) ks.

(** The key the Hodge dual sends [k] to, and all the grades of the
    algebra. *)
Definition hodge_key (k : Z) : Z := alg_len A - 1 - k.

Definition every_grade : list Z :=
  map Z.of_nat (seq 0 (S (N.to_nat (d A)))).

(** *** The constructor *)

(** The grades the constructor works with: the given ones once
    checked, all of them by default. *)
Definition new_grades (grades : option (list Z)) : result (list Z) :=
  match grades with
  | Some gs =>
      if forallb (fun g => (0 <=? g) && (g <=? Z.of_N (d A))) gs
      then Ok gs
      else Raise ValueError
             ("Each grade in `grades` needs to be a value between 0 and "
                ++ repr_int (Z.of_N (d A)) ++ ".")
  | None => Ok (map Z.of_nat (seq 0 (S (N.to_nat (d A)))))
  end.

(** [bool(keys)] *)
Definition given (keys : option (list item)) : bool :=
  match keys with
  | Some (_ :: _) => true
  | _ => false
  end.

(** One fresh symbol per key in symbolic mode:
    [symbolcls(f'{name}{algebra.bin2canon[k][1:]}')] *)
Definition new_symbol (name : string) (k : item) : result (pyvalue E) :=
  match k with
  | KInt z =>
      match bin2canon A z with
      | Some s => Ok (VExpr (symbolcls (name ++ tail_string s)))
      | None => raise_ KeyError
      end
  | KStr _ => raise_ KeyError
  end.

(** The [if]/[elif] chain that settles keys and values. *)
Definition new_select (values : values_arg E) (keys : option (list item))
    (name : string) (grades : list Z)
  : result (list item * list (pyvalue E)) :=
  match values with
  | ValuesMapping m =>
      match m with
      | [] => raise_ ValueError
      | _ => Ok (map fst m, map snd m)
      end
  | ValuesSeq vs =>
      if (Z.of_nat (List.length vs) =? alg_len A) && negb (given keys)
      then Ok (map KInt (map Z.of_nat (seq 0 (List.length vs))), vs)
      else if Nat.eqb (List.length vs)
                      (List.length (indices_for_grades A grades))
              && negb (given keys)
      then Ok (map KInt (indices_for_grades A grades), vs)
      else if negb (String.eqb name EmptyString)
              && Nat.eqb (List.length vs) 0
      then
        let keys := match keys with
                    | Some (k :: ks) => k :: ks
                    | _ => map KInt (indices_for_grades A grades)
                    end in
        syms <- mapM (new_symbol name) keys ;;
        Ok (keys, syms)
      else
        match keys with
        | None => raise_ TypeError
        | Some ks =>
            if Nat.eqb (List.length ks) (List.length vs) then Ok (ks, vs)
            else Raise TypeError
                   "Length of `keys` and `values` have to match."
        end
  end.

(** [MultiVector(algebra, values, keys, name=..., grades=...)] *)
Definition MultiVector_init (values : values_arg E)
    (keys : option (list item)) (name : string)
    (grades : option (list Z)) : result (MultiVector E) :=
  grades <- new_grades grades ;;
  kv <- new_select values keys name grades ;;
  keys <- (if forallb is_int (fst kv) then Ok (map int_of (fst kv))
           else mapM (resolve A) (fst kv)) ;;
  let values := map (fun v => match v with
                              | VExpr e => e
                              | VStr s => sympify s
                              end) (snd kv) in
  if forallb (fun k => mem k (indices_for_grades A grades)) keys
  then Ok (fromkeysvalues keys values)
  else Raise ValueError
         ("All keys should be of grades " ++ repr_tuple grades ++ ".").
End MoreMultiVector.

(* ------------------------------------------------------------------ *)
(** ** The rest of the derivations *)

Section MoreCodegen.
Context {E : Type} `{Backend E}.
Variable A : Algebra E.
(** [algebra.swaps[ei, ej]], and the subtraction of coefficients *)
Variable swaps : Z -> Z -> Z.
Variable sub : E -> E -> E.
(** [x.algebra.multivector(vals=...)]: the keyword call of
    [codegen_conj].  The class constructor has no parameter [vals];
    what the descriptor's method does with the keyword is not in the
    sources. *)
Variable multivector_vals : dict E -> result (MultiVector E).

(** [codegen_gp(x, y, symbolic=True)] *)
Definition codegen_gp_symbolic (x y : MultiVector E) : result (dict E) :=
  mx <- vals x ;;
  my <- vals y ;;
  Ok (drop_zeros (gp_accumulate A mx my)).

(** The body of the accumulation loop of [codegen_ip]; unlike
    [codegen_gp] it does not look at the sign before adding a term. *)
Definition ip_step (diff_func : Z -> Z) (res : dict E)
    (p : (Z * E) * (Z * E)) : dict E :=
  let '((ei, vi), (ej, vj)) := p in
  if Z.lxor ei ej =? diff_func (ei - ej) then
    let cur := match dict_get (Z.lxor ei ej) res with
               | Some e => e
               | None => of_int 0
               end in
    dict_set (Z.lxor ei ej)
             (add cur (mul (mul (of_int (signs A ei ej)) vi) vj)) res
  else res.

(** The loop over [product(mx.items(), my.items())], for the two
    mappings the reads [x.vals] and [y.vals] hand to it. *)
Definition ip_accumulate (diff_func : Z -> Z) (mx my : dict E) : dict E :=
  fold_left (ip_step diff_func) (product mx my) [].

(** [codegen_ip(x, y, diff_func, symbolic=True)] *)
Definition codegen_ip_symbolic (x y : MultiVector E) (diff_func : Z -> Z)
  : result (dict E) :=
  mx <- vals x ;;
  my <- vals y ;;
  Ok (drop_zeros (ip_accumulate diff_func mx my)).

Definition codegen_ip (x y : MultiVector E) (diff_func : Z -> Z)
    (symbolic : bool) : result (codegen_out E) :=
  res_vals <- codegen_ip_symbolic x y diff_func ;;
  if symbolic then Ok (Symbolic res_vals)
  else kf <- _lambdify_binary A x y res_vals ;;
       Ok (Compiled (fst kf) (snd kf)).

(** Left contraction, right contraction, scalar product *)
Definition codegen_lc (x y : MultiVector E) : result (codegen_out E) :=
  codegen_ip x y (fun x => - x) false.

Definition codegen_rc (x y : MultiVector E) : result (codegen_out E) :=
  codegen_ip x y (fun x => x) false.

Definition codegen_sp (x y : MultiVector E) : result (codegen_out E) :=
  codegen_ip x y (fun _ => 0) false.

(** The body of the accumulation loop of [codegen_op] *)
Definition op_step (res : dict E) (p : (Z * E) * (Z * E)) : dict E :=
  let '((ei, vi), (ej, vj)) := p in
  if Z.lxor ei ej =? ei + ej then
    let cur := match dict_get (Z.lxor ei ej) res with
               | Some e => e
               | None => of_int 0
               end in
    dict_set (Z.lxor ei ej)
             (add cur (mul (mul (of_int ((-1) ^ swaps ei ej)) vi) vj)) res
  else res.

Definition op_accumulate (mx my : dict E) : dict E :=
  fold_left op_step (product mx my) [].

(** [codegen_op(x, y, symbolic=True)] *)
Definition codegen_op_symbolic (x y : MultiVector E) : result (dict E) :=
  mx <- vals x ;;
  my <- vals y ;;
  Ok (drop_zeros (op_accumulate mx my)).

Definition codegen_op (x y : MultiVector E) (symbolic : bool)
  : result (codegen_out E) :=
  res_vals <- codegen_op_symbolic x y ;;
  if symbolic then Ok (Symbolic res_vals)
  else kf <- _lambdify_binary A x y res_vals ;;
       Ok (Compiled (fst kf) (snd kf)).

(** [codegen_conj]: [x * y * ~x].  The argument of the keyword call is
    evaluated before the call, [~x] before the second product. *)
Definition codegen_conj (x y : MultiVector E) (symbolic : bool)
  : result (codegen_out E) :=
  xy_vals <- codegen_gp_symbolic x y ;;
  xy <- multivector_vals xy_vals ;;
  xyx <- codegen_gp_symbolic xy (mv_invert x) ;;
  if symbolic then Ok (Symbolic xyx)
  else kf <- _lambdify_binary A x y xyx ;;
       Ok (Compiled (fst kf) (snd kf)).

(** [codegen_proj]: [(x . y) * ~y] *)
Definition codegen_proj (x y : MultiVector E)
  : result (list Z * Lambda E) :=
  x_dot_y_vals <- codegen_ip_symbolic x y Z.abs ;;
  x_dot_y <- multivector A x_dot_y_vals ;;
  x_proj_y <- codegen_gp_symbolic x_dot_y (mv_invert y) ;;
  _lambdify_binary A x y x_proj_y.

(** The body of the loop of [codegen_cp] over the items of [yx] *)
Definition cp_step (xy : dict E) (kv : Z * E) : dict E :=
  match dict_get (fst kv) xy with
  | Some a =>
      if truthy (sub a (snd kv))
      then dict_set (fst kv) (sub a (snd kv)) xy
      else dict_del (fst kv) xy
  | None => dict_set (fst kv) (neg (snd kv)) xy
  end.

(** [codegen_cp]: [0.5 * (x * y - y * x)].  [y / 2] is evaluated
    before the first product is derived. *)
Definition codegen_cp (x y : MultiVector E)
  : result (list Z * Lambda E) :=
  y_half <- mv_truediv A y (OpScalar (of_int 2)) ;;
  xy <- codegen_gp_symbolic x y_half ;;
  x_half <- mv_truediv A x (OpScalar (of_int 2)) ;;
  yx <- codegen_gp_symbolic y x_half ;;
  _lambdify_binary A x y (fold_left cp_step yx xy).

(** [codegen_rp]: [undual(op(dual(x), dual(y)))] *)
Definition codegen_rp (x y : MultiVector E)
  : result (list Z * Lambda E) :=
  x_dual <- dual A x "auto" ;;
  y_dual <- dual A y "auto" ;;
  wedge_vals <- codegen_op_symbolic x_dual y_dual ;;
  wedge <- multivector A wedge_vals ;;
  x_regr_y <- undual A wedge "auto" ;;
  res <- vals x_regr_y ;;
  _lambdify_binary A x y res.

(** *** The shape shared by the accumulation loops *)

(** A pair of entries is selected by [sel], contributes
    [coef(ei, ej) * vi * vj] and lands on the key [ei XOR ej]. *)
Definition pair_selected (sel : Z -> Z -> bool) (k : Z)
    (p : (Z * E) * (Z * E)) : bool :=
  sel (fst (fst p)) (fst (snd p))
  && (Z.lxor (fst (fst p)) (fst (snd p)) =? k).

Definition pair_term (coef : Z -> Z -> Z) (p : (Z * E) * (Z * E)) : E :=
  mul (mul (of_int (coef (fst (fst p)) (fst (snd p)))) (snd (fst p)))
      (snd (snd p)).

(** The contributions under [k] of the entries of two mappings: every
    entry of [mx] is paired with every entry of [my], the entries of
    [mx] varying slowest. *)
Definition pair_terms (sel : Z -> Z -> bool) (coef : Z -> Z -> Z)
    (mx my : dict E) (k : Z) : list E :=
  map (pair_term coef) (filter (pair_selected sel k) (list_prod mx my)).

(** What is stored under a key that received the terms [ts]. *)
Definition entry_of (ts : list E) : option E :=
  match ts with
  | [] => None
  | _ =>
      let s := simplify (fold_left add ts (of_int 0)) in
      if truthy s then Some s else None
  end.

Definition pair_step (sel : Z -> Z -> bool) (coef : Z -> Z -> Z)
    (res : dict E) (p : (Z * E) * (Z * E)) : dict E :=
  if sel (fst (fst p)) (fst (snd p)) then
    dict_set (Z.lxor (fst (fst p)) (fst (snd p)))
             (add (from_zero (dict_get (Z.lxor (fst (fst p)) (fst (snd p)))
                                       res))
                  (pair_term coef p)) res
  else res.

(** What the loop of [codegen_cp] leaves under a key that holds [a]
    in [xy] and [b] in [yx]. *)
Definition cp_merge (a b : option E) : option E :=
  match a, b with
  | Some u, Some w => if truthy (sub u w) then Some (sub u w) else None
  | Some u, None => Some u
  | None, Some w => Some (neg w)
  | None, None => None
  end.

(** Every key of a mapping is a non-negative integer. *)
Definition nonneg_keys (m : dict E) : bool :=
  forallb (fun k => 0 <=? k) (dict_keys m).
End MoreCodegen.

(* ------------------------------------------------------------------ *)
(** ** More concrete inputs *)

(** Uninterpreted terms over named symbols: a symbolic engine without
    any simplification rule.  Only a number can be false. *)
Inductive term : Type :=
| TNum (q : Q)
| TSym (s : string)
| TAdd (a b : term)
| TMul (a b : term)
| TNeg (a : term)
| TDiv (a b : term).

Fixpoint term_symbols (t : term) : list string :=
  match t with
  | TNum _ => []
  | TSym s => [s]
  | TAdd a b | TMul a b | TDiv a b =>
      set_union (term_symbols a) (term_symbols b)
  | TNeg a => term_symbols a
  end.

#[export] Instance TermBackend : Backend term := {|
  of_int := fun z => TNum (inject_Z z);
  add := TAdd;
  mul := TMul;
  neg := TNeg;
  div := fun a b => Ok (TDiv a b);
  simplify := fun t => t;
  truthy := fun t => match t with
                     | TNum q => negb (Qeq_bool q 0)
                     | _ => true
                     end;
  free_symbols := fun t => Some (term_symbols t)
|}.

(** The plane over terms. *)
Definition term_plane : Algebra term := numeric_algebra [1; 1].

(** Subtraction of rationals, the swap counts of three-dimensional
    space, and a stand-in for running a callable that hands its
    arguments back. *)
Definition rational_sub (a b : Q) : Q := Qred (a - b).

Definition space_swaps : Z -> Z -> Z := swaps_from 3.

Definition hand_back {E : Type} (f : Lambda E) (args : list E)
  : result (list E) := Ok args.

(** The plane with one more, degenerate, direction first: bit 0 squares
    to 0. *)
Definition degenerate_plane : Algebra Q := numeric_algebra [0; 1; 1].

(* ------------------------------------------------------------------ *)
(** ** Facts about dictionaries and tuples *)

Section DictFacts.
Context {V : Type}.
Implicit Types (m : dict V) (k : Z) (v : V).

Lemma dict_get_set_same k v m : dict_get k (dict_set k v m) = Some v.
Proof.
  induction m as [|[k' v'] m IH]; simpl.
  - now rewrite Z.eqb_refl.
  - destruct (k' =? k) eqn:Hk; simpl; rewrite Hk; auto.
Qed.

Lemma dict_get_set_other k k' v m :
  k <> k' -> dict_get k (dict_set k' v m) = dict_get k m.
Proof.
  intros Hne. induction m as [|[k1 v1] m IH]; simpl.
  - destruct (k' =? k) eqn:Hk; auto. apply Z.eqb_eq in Hk. congruence.
  - destruct (k1 =? k') eqn:H1; simpl.
    + apply Z.eqb_eq in H1. subst k1.
      destruct (k' =? k) eqn:Hk; auto. apply Z.eqb_eq in Hk. congruence.
    + destruct (k1 =? k); auto.
Qed.

Lemma dict_get_In k m : In k (dict_keys m) <-> dict_get k m <> None.
Proof.
  induction m as [|[k' v'] m IH]; simpl.
  - split; [intros [] | intros Hn; now elim Hn].
  - destruct (k' =? k) eqn:Hk.
    + apply Z.eqb_eq in Hk. split; [congruence | auto].
    + apply Z.eqb_neq in Hk. rewrite <- IH. tauto.
Qed.

Lemma dict_get_None k m : ~ In k (dict_keys m) <-> dict_get k m = None.
Proof.
  rewrite dict_get_In. destruct (dict_get k m) as [v|].
  - split; [intros Hn; elim Hn; discriminate | discriminate].
  - split; [reflexivity | intros _ Hn; now elim Hn].
Qed.

Lemma dict_set_fresh k v m :
  ~ In k (dict_keys m) -> dict_set k v m = m ++ [(k, v)].
Proof.
  induction m as [|[k' v'] m IH]; simpl; intros Hn; auto.
  destruct (k' =? k) eqn:Hk.
  - apply Z.eqb_eq in Hk. tauto.
  - f_equal. apply IH. tauto.
Qed.

Lemma dict_keys_set_present k v m :
  In k (dict_keys m) -> dict_keys (dict_set k v m) = dict_keys m.
Proof.
  induction m as [|[k' v'] m IH]; simpl; intros Hin; [tauto|].
  destruct (k' =? k) eqn:Hk; simpl; auto.
  apply Z.eqb_neq in Hk. f_equal. apply IH. tauto.
Qed.

Lemma dict_keys_set k v m :
  dict_keys (dict_set k v m)
  = if dict_mem k m then dict_keys m else dict_keys m ++ [k].
Proof.
  unfold dict_mem. destruct (dict_get k m) eqn:Hg.
  - apply dict_keys_set_present. apply dict_get_In. congruence.
  - apply dict_get_None in Hg. rewrite dict_set_fresh by assumption.
    unfold dict_keys. now rewrite map_app.
Qed.

Lemma dict_set_NoDup k v m :
  NoDup (dict_keys m) -> NoDup (dict_keys (dict_set k v m)).
Proof.
  intros Hnd. rewrite dict_keys_set. unfold dict_mem.
  destruct (dict_get k m) eqn:Hg; auto.
  apply dict_get_None in Hg.
  apply NoDup_app; auto.
  - repeat constructor. simpl. tauto.
  - intros a Ha [Hb|[]]. subst. tauto.
Qed.

Lemma dict_set_Forall (P : V -> Prop) k v m :
  P v -> Forall (fun kv => P (snd kv)) m ->
  Forall (fun kv => P (snd kv)) (dict_set k v m).
Proof.
  intros Hv. induction 1 as [|[k' v'] m Hh Ht IH]; simpl.
  - repeat constructor; auto.
  - destruct (k' =? k); constructor; auto.
Qed.

(** A list of entries with distinct keys is already a dictionary. *)
Lemma dict_of_items_app (acc l : list (Z * V)) :
  NoDup (map fst (acc ++ l)) ->
  fold_left (fun m kv => dict_set (fst kv) (snd kv) m) l acc = acc ++ l.
Proof.
  revert acc. induction l as [|[k v] l IH]; intros acc Hnd; simpl.
  - now rewrite app_nil_r.
  - rewrite dict_set_fresh.
    + rewrite IH; rewrite <- app_assoc; auto.
    + rewrite map_app in Hnd. simpl in Hnd.
      apply NoDup_remove_2 in Hnd. intros Hin. apply Hnd.
      apply in_or_app. now left.
Qed.

Lemma dict_of_items_NoDup (l : list (Z * V)) :
  NoDup (map fst l) -> dict_of_items l = l.
Proof. intros Hnd. apply (dict_of_items_app [] l Hnd). Qed.

Lemma combine_keys_values (m : dict V) :
  combine (dict_keys m) (dict_values m) = m.
Proof.
  induction m as [|[k v] m IH]; simpl; auto. now rewrite IH.
Qed.

Lemma keys_of_combine (ks : list Z) (vs : list V) :
  List.length ks = List.length vs -> map fst (combine ks vs) = ks.
Proof.
  revert vs. induction ks as [|k ks IH]; intros [|v vs] Hl; simpl in *;
    try discriminate; auto.
  f_equal. apply IH. lia.
Qed.

Lemma values_of_combine (ks : list Z) (vs : list V) :
  List.length ks = List.length vs -> map snd (combine ks vs) = vs.
Proof.
  revert vs. induction ks as [|k ks IH]; intros [|v vs] Hl; simpl in *;
    try discriminate; auto.
  f_equal. apply IH. lia.
Qed.
End DictFacts.

Lemma mem_In k l : mem k l = true <-> In k l.
Proof.
  unfold mem. rewrite existsb_exists. split.
  - intros [x [Hin Hx]]. apply Z.eqb_eq in Hx. now subst.
  - intros Hin. exists k. split; auto. apply Z.eqb_refl.
Qed.

Lemma mem_false k l : mem k l = false <-> ~ In k l.
Proof.
  rewrite <- mem_In. destruct (mem k l); split; congruence.
Qed.

Lemma index_of_None k l : index_of k l = None <-> ~ In k l.
Proof.
  induction l as [|k' l IH]; simpl.
  - tauto.
  - destruct (k' =? k) eqn:Hk.
    + apply Z.eqb_eq in Hk. split; [discriminate | tauto].
    + apply Z.eqb_neq in Hk. destruct (index_of k l).
      * split; [discriminate|]. intros Hn. exfalso. apply Hn. right.
        destruct (in_dec Z.eq_dec k l) as [Hi|Hi]; auto.
        apply IH in Hi. discriminate.
      * split; auto. intros _ [Heq|Hin]; [congruence|]. now apply IH.
Qed.

Lemma distinct_NoDup l : distinct l = true -> NoDup l.
Proof.
  induction l as [|k l IH]; simpl; intros Hd; constructor.
  - apply andb_prop in Hd. destruct Hd as [Hm _].
    apply negb_true_iff in Hm. now apply mem_false.
  - apply IH. apply andb_prop in Hd. tauto.
Qed.

Lemma NoDup_distinct l : NoDup l -> distinct l = true.
Proof.
  induction 1 as [|k l Hn Hnd IH]; simpl; auto.
  rewrite IH, andb_true_r. apply negb_true_iff. now apply mem_false.
Qed.

Lemma index_of_combine {V : Type} (k : Z) (ks : list Z) (vs : list V) :
  List.length ks = List.length vs ->
  match index_of k ks with
  | Some n => exists v, nth_error vs n = Some v
                        /\ dict_get k (combine ks vs) = Some v
  | None => dict_get k (combine ks vs) = None
  end.
Proof.
  revert vs. induction ks as [|k' ks IH]; intros [|v vs] Hl; simpl in *;
    try discriminate; auto.
  destruct (k' =? k) eqn:Hk.
  - exists v. auto.
  - specialize (IH vs ltac:(lia)). destruct (index_of k ks); auto.
Qed.

(* ------------------------------------------------------------------ *)
(** ** Addition and indexed access *)

Section MultiVectorFacts.
Context {E : Type} `{Backend E}.
Implicit Types (x y v : MultiVector E) (m : dict E).

Lemma well_formed_length v :
  well_formed v = true -> List.length (_keys v) = List.length (_values v).
Proof.
  unfold well_formed. intros Hw. apply andb_prop in Hw.
  now apply Nat.eqb_eq.
Qed.

Lemma well_formed_NoDup v : well_formed v = true -> NoDup (_keys v).
Proof.
  unfold well_formed. intros Hw. apply andb_prop in Hw.
  now apply distinct_NoDup.
Qed.

Lemma items_keys v : well_formed v = true -> map fst (items v) = _keys v.
Proof. intros Hw. apply keys_of_combine, well_formed_length, Hw. Qed.

Lemma dict_items v :
  well_formed v = true -> dict_of_items (items v) = items v.
Proof.
  intros Hw. apply dict_of_items_NoDup. rewrite items_keys by assumption.
  now apply well_formed_NoDup.
Qed.

Lemma add_entry_get k m kv :
  dict_get k (add_entry m kv)
  = if fst kv =? k then merge (dict_get k m) (Some (snd kv))
    else dict_get k m.
Proof.
  destruct kv as [k1 v1]. unfold add_entry. simpl.
  destruct (k1 =? k) eqn:Hk.
  - apply Z.eqb_eq in Hk. subst k1.
    destruct (dict_get k m); simpl; apply dict_get_set_same.
  - apply Z.eqb_neq in Hk.
    destruct (dict_get k1 m); apply dict_get_set_other; congruence.
Qed.

Lemma add_entry_keys m kv :
  dict_keys (add_entry m kv)
  = if mem (fst kv) (dict_keys m) then dict_keys m
    else dict_keys m ++ [fst kv].
Proof.
  destruct kv as [k1 v1]. unfold add_entry. simpl.
  destruct (dict_get k1 m) eqn:Hg.
  - assert (Hin : In k1 (dict_keys m)) by (apply dict_get_In; congruence).
    rewrite (proj2 (mem_In _ _) Hin). now apply dict_keys_set_present.
  - apply dict_get_None in Hg.
    rewrite (proj2 (mem_false _ _) Hg).
    rewrite dict_set_fresh by assumption.
    unfold dict_keys. now rewrite map_app.
Qed.

Lemma add_fold_get k (l : list (Z * E)) : forall m,
  NoDup (map fst l) ->
  dict_get k (fold_left add_entry l m)
  = merge (dict_get k m) (dict_get k l).
Proof.
  induction l as [|[k1 v1] l IH]; intros m Hnd; simpl.
  - destruct (dict_get k m); reflexivity.
  - inversion Hnd as [|? ? Hnin Hnd']; subst.
    rewrite IH by assumption. rewrite add_entry_get. simpl.
    destruct (k1 =? k) eqn:Hk.
    + apply Z.eqb_eq in Hk. subst k1.
      rewrite (proj1 (dict_get_None k l) Hnin).
      destruct (dict_get k m); reflexivity.
    + reflexivity.
Qed.

Lemma add_fold_keys (l : list (Z * E)) : forall m,
  NoDup (map fst l) ->
  dict_keys (fold_left add_entry l m)
  = dict_keys m
    ++ filter (fun k => negb (mem k (dict_keys m))) (map fst l).
Proof.
  induction l as [|[k1 v1] l IH]; intros m Hnd; simpl.
  - now rewrite app_nil_r.
  - inversion Hnd as [|? ? Hnin Hnd']; subst.
    rewrite IH by assumption. rewrite add_entry_keys. simpl.
    destruct (mem k1 (dict_keys m)) eqn:Hm; simpl.
    + reflexivity.
    + rewrite <- app_assoc. simpl. do 2 f_equal.
      apply filter_ext_in. intros a Ha. f_equal.
      unfold mem. rewrite existsb_app. simpl.
      destruct (k1 =? a) eqn:Hk; [|now rewrite !orb_false_r].
      apply Z.eqb_eq in Hk. subst. tauto.
Qed.

Lemma add_fold_NoDup (l : list (Z * E)) : forall m,
  NoDup (dict_keys m) -> NoDup (dict_keys (fold_left add_entry l m)).
Proof.
  induction l as [|kv l IH]; intros m Hnd; simpl; auto.
  apply IH. unfold add_entry.
  destruct (dict_get (fst kv) m); now apply dict_set_NoDup.
Qed.

(** The result of [+] is again well formed. *)
Lemma mv_add_well_formed x (o : operand E) :
  well_formed x = true -> well_formed (mv_add x o) = true.
Proof.
  intros Hx. unfold well_formed, mv_add. simpl.
  unfold dict_keys, dict_values. rewrite !length_map, Nat.eqb_refl. simpl.
  apply NoDup_distinct. apply add_fold_NoDup.
  rewrite dict_items by assumption.
  unfold dict_keys. rewrite items_keys by assumption.
  now apply well_formed_NoDup.
Qed.

Lemma mv_add_items_get x y k :
  well_formed x = true -> well_formed y = true ->
  dict_get k (items (mv_add x (OpMV y)))
  = merge (dict_get k (items x)) (dict_get k (items y)).
Proof.
  intros Hx Hy. unfold mv_add, items at 1. simpl.
  rewrite combine_keys_values.
  rewrite add_fold_get.
  - now rewrite dict_items.
  - rewrite items_keys by assumption. now apply well_formed_NoDup.
Qed.

Lemma mv_add_keys x y :
  well_formed x = true -> well_formed y = true ->
  _keys (mv_add x (OpMV y))
  = _keys x ++ filter (fun k => negb (mem k (_keys x))) (_keys y).
Proof.
  intros Hx Hy. unfold mv_add. simpl.
  rewrite add_fold_keys.
  - rewrite dict_items by assumption. unfold dict_keys.
    now rewrite !items_keys.
  - rewrite items_keys by assumption. now apply well_formed_NoDup.
Qed.

(** Reading a resolved key: the stored value, or the integer 0. *)
Lemma getitem_items (A : Algebra E) v it k :
  well_formed v = true -> resolve A it = Ok k ->
  getitem A v it = Ok (match dict_get k (items v) with
                       | Some c => c
                       | None => of_int 0
                       end).
Proof.
  intros Hw Hr. unfold getitem. rewrite Hr. simpl.
  pose proof (index_of_combine k (_keys v) (_values v)
                (well_formed_length v Hw)) as Hi.
  unfold items. destruct (index_of k (_keys v)).
  - destruct Hi as [c [Hn Hg]]. now rewrite Hn, Hg.
  - now rewrite Hi.
Qed.
End MultiVectorFacts.

(* ------------------------------------------------------------------ *)
(** ** Properties of the multivector value *)

Section MultiVectorClaims.
Context {E : Type} `{Backend E}.
Variable A : Algebra E.
Variable apply_lambda : Lambda E -> list E -> result (list E).
Implicit Types (x y v : MultiVector E).

(** C9.  The keys of [x + y] are exactly the keys of [x] and the keys
    of [y]: those of [x] in their order, then the keys of [y] that [x]
    lacks; every key has a value, and under a shared key the stored
    value is the sum of the two coefficients, whatever that sum is (a
    zero is stored like any other value, nothing is filtered). *)
Theorem add_support_is_union x y :
  well_formed x = true -> well_formed y = true ->
  (forall k, In k (_keys (mv_add x (OpMV y)))
             <-> In k (_keys x) \/ In k (_keys y))
  /\ _keys (mv_add x (OpMV y))
     = _keys x ++ filter (fun k => negb (mem k (_keys x))) (_keys y)
  /\ List.length (_values (mv_add x (OpMV y)))
     = List.length (_keys (mv_add x (OpMV y)))
  /\ (forall k a b,
        dict_get k (items x) = Some a ->
        dict_get k (items y) = Some b ->
        dict_get k (items (mv_add x (OpMV y))) = Some (add a b)).
Proof.
  intros Hx Hy. repeat split.
  - rewrite mv_add_keys by assumption. intros Hin.
    apply in_app_or in Hin. destruct Hin as [Hin|Hin]; auto.
    apply filter_In in Hin. tauto.
  - rewrite mv_add_keys by assumption. intros [Hin|Hin].
    + apply in_or_app. now left.
    + apply in_or_app. destruct (mem k (_keys x)) eqn:Hm.
      * left. now apply mem_In.
      * right. apply filter_In. now rewrite Hm.
  - now apply mv_add_keys.
  - symmetry. apply well_formed_length.
    now apply mv_add_well_formed.
  - intros k a b Ha Hb. rewrite mv_add_items_get by assumption.
    now rewrite Ha, Hb.
Qed.

Lemma scalar_operand_well_formed (c : E) :
  well_formed (fromkeysvalues [0] [c]) = true.
Proof. reflexivity. Qed.

(** C5 as the code has it.  [v + 0] wraps the 0 as a scalar
    multivector and unions the keys: the keys of [v] are kept, key 0 is
    appended when [v] does not store it; every other key keeps its
    coefficient, and key 0 holds [c + 0] for a stored scalar [c], the
    integer 0 otherwise.  So when [c + 0] is [c], every indexed read of
    [v + 0] answers what the same read of [v] answers. *)
Theorem add_zero_reads_the_same v :
  well_formed v = true ->
  _keys (mv_add v (OpScalar (of_int 0)))
  = (if mem 0 (_keys v) then _keys v else _keys v ++ [0])
  /\ (forall k, k <> 0 ->
        dict_get k (items (mv_add v (OpScalar (of_int 0))))
        = dict_get k (items v))
  /\ dict_get 0 (items (mv_add v (OpScalar (of_int 0))))
     = Some (match dict_get 0 (items v) with
             | Some c => add c (of_int 0)
             | None => of_int 0
             end)
  /\ ((forall c, dict_get 0 (items v) = Some c -> add c (of_int 0) = c) ->
      forall it, getitem A (mv_add v (OpScalar (of_int 0))) it
                 = getitem A v it).
Proof.
  intros Hv.
  pose proof (scalar_operand_well_formed (of_int 0)) as H0.
  assert (Hget : forall k,
             dict_get k (items (mv_add v (OpScalar (of_int 0))))
             = merge (dict_get k (items v))
                     (if 0 =? k then Some (of_int 0) else None)).
  { intros k.
    exact (mv_add_items_get v (fromkeysvalues [0] [of_int 0]) k Hv H0). }
  split; [|split; [|split]].
  - change (mv_add v (OpScalar (of_int 0)))
      with (mv_add v (OpMV (fromkeysvalues [0] [of_int 0]))).
    rewrite mv_add_keys by assumption. simpl.
    destruct (mem 0 (_keys v)); simpl; auto using app_nil_r.
  - intros k Hk. rewrite Hget.
    destruct (0 =? k) eqn:Hz; [apply Z.eqb_eq in Hz; congruence|].
    destruct (dict_get k (items v)); reflexivity.
  - rewrite Hget. simpl. destruct (dict_get 0 (items v)); reflexivity.
  - intros Hneutral it.
    destruct (resolve A it) as [k|c msg] eqn:Hr;
      [|unfold getitem; now rewrite Hr].
    rewrite (getitem_items A _ it k
               (mv_add_well_formed v _ Hv) Hr).
    rewrite (getitem_items A v it k Hv Hr).
    rewrite Hget. destruct (0 =? k) eqn:Hz.
    + apply Z.eqb_eq in Hz. subst k.
      destruct (dict_get 0 (items v)) as [c|] eqn:Hc; simpl; auto.
      now rewrite (Hneutral c eq_refl).
    + destruct (dict_get k (items v)); reflexivity.
Qed.

(** C6.  Reading a valid key, or a name that resolves to one, that is
    not among the stored keys returns the integer 0; nothing is
    raised. *)
Theorem getitem_absent_key_is_zero v it k :
  resolve A it = Ok k -> mem k (_keys v) = false ->
  getitem A v it = Ok (of_int 0).
Proof.
  intros Hr Hm. unfold getitem. rewrite Hr. simpl.
  apply mem_false in Hm. apply index_of_None in Hm. now rewrite Hm.
Qed.

(** C10.  An item found in neither table makes both [v[item]] and
    [item in v] raise [KeyError]; an indexed read that returns a value
    at all was given an item that resolves to a key. *)
Theorem getitem_unknown_name_raises v it :
  (unresolvable A it ->
   getitem A v it = Raise KeyError EmptyString
   /\ contains A v it = Raise KeyError EmptyString)
  /\ (forall c, getitem A v it = Ok c -> exists k, resolve A it = Ok k).
Proof.
  split.
  - intros Hu. unfold getitem, contains, resolve.
    destruct it as [k|s]; simpl in Hu; rewrite Hu; split; reflexivity.
  - intros c Hg. unfold getitem in Hg.
    destruct (resolve A it) as [k|e msg]; [now exists k|discriminate].
Qed.

(** C8.  With a number of degenerate dimensions other than 0 and 1,
    [dual] and [undual] in mode [auto] raise; no policy is applied. *)
Theorem dual_auto_unsupported_raises v :
  r A <> 0%N -> r A <> 1%N ->
  dual A v "auto"
  = Raise Exception
      "Cannot select a suitable dual in auto mode for this algebra."
  /\ undual A v "auto"
     = Raise Exception
         "Cannot select a suitable undual in auto mode for this algebra.".
Proof.
  intros H0 H1. apply N.eqb_neq in H0, H1.
  unfold dual, undual. simpl. rewrite H0, H1. now split.
Qed.

(** A multivector whose coefficients all carry a [free_symbols] set,
    the union being empty, is returned unchanged by a call. *)
Lemma mv_call_no_symbols v args :
  mv_free_symbols v = Ok [] -> mv_call A apply_lambda v args = Ok v.
Proof. intros Hf. unfold mv_call. now rewrite Hf. Qed.

(** A first coefficient without the attribute (a plain Python number)
    makes the call raise. *)
Lemma mv_call_plain_number ks c cs args :
  free_symbols c = None ->
  mv_call A apply_lambda (fromkeysvalues ks (c :: cs)) args
  = Raise AttributeError EmptyString.
Proof.
  intros Hc. unfold mv_call, mv_free_symbols, attr_free_symbols. simpl.
  now rewrite Hc.
Qed.

(** C7 on the code.  The multivector without entries holds no free
    symbol, yet calling it does not return it: [reduce] has no initial
    value and raises [TypeError] on the empty sequence of
    coefficients. *)
Theorem call_empty_multivector_raises args :
  mv_call A apply_lambda (fromkeysvalues [] []) args
  = Raise TypeError EmptyString.
Proof. reflexivity. Qed.
End MultiVectorClaims.

(** C4 on the code.  [codegen_acp] returns normally, and what it returns
    is the class [NotImplementedError] itself; it never raises. *)
Theorem codegen_acp_returns_error_class
    {E : Type} (x y : MultiVector E) :
  codegen_acp x y = Ok (ClassObject NotImplementedError)
  /\ (forall msg, codegen_acp x y <> Raise NotImplementedError msg)
  /\ is_ok (codegen_acp x y) = true.
Proof.
  repeat split. intros msg Hc. discriminate.
Qed.

(* ------------------------------------------------------------------ *)
(** ** The geometric product derivation *)

Section ComprehensionFacts.
Context {V W : Type}.
Variable f : Z -> V -> option (Z * W).
Hypothesis f_keeps_key : forall k e k' w, f k e = Some (k', w) -> k' = k.

Lemma dict_comp_fold_get k (l : list (Z * V)) : forall out,
  NoDup (map fst l) ->
  dict_get k (fold_left (comp_step f) l out)
  = match dict_get k l with
    | Some e => match f k e with
                | Some (_, w) => Some w
                | None => dict_get k out
                end
    | None => dict_get k out
    end.
Proof.
  induction l as [|[k1 e1] l IH]; intros out Hnd; simpl; auto.
  inversion Hnd as [|? ? Hnin Hnd']; subst.
  rewrite IH by assumption.
  assert (Hout : dict_get k (comp_step f out (k1, e1))
                 = if k1 =? k
                   then match f k e1 with
                        | Some (_, w) => Some w
                        | None => dict_get k out
                        end
                   else dict_get k out).
  { unfold comp_step. simpl. destruct (k1 =? k) eqn:Hk.
    - apply Z.eqb_eq in Hk. subst k1.
      destruct (f k e1) as [[k' w]|] eqn:Hf; auto.
      rewrite (f_keeps_key _ _ _ _ Hf). apply dict_get_set_same.
    - apply Z.eqb_neq in Hk.
      destruct (f k1 e1) as [[k' w]|] eqn:Hf; auto.
      rewrite (f_keeps_key _ _ _ _ Hf).
      apply dict_get_set_other. congruence. }
  rewrite Hout. destruct (k1 =? k) eqn:Hk.
  - apply Z.eqb_eq in Hk. subst k1.
    now rewrite (proj1 (dict_get_None k l) Hnin).
  - reflexivity.
Qed.

Lemma dict_comp_get k (l : list (Z * V)) :
  NoDup (map fst l) ->
  dict_get k (dict_comp f l)
  = match dict_get k l with
    | Some e => match f k e with Some (_, w) => Some w | None => None end
    | None => None
    end.
Proof.
  intros Hnd. unfold dict_comp.
  rewrite (dict_comp_fold_get k l [] Hnd). simpl.
  destruct (dict_get k l); auto.
Qed.
End ComprehensionFacts.

Lemma dict_comp_NoDup {V W : Type} (f : Z -> V -> option (Z * W))
    (l : list (Z * V)) : NoDup (dict_keys (dict_comp f l)).
Proof.
  unfold dict_comp.
  assert (Hgen : forall out, NoDup (dict_keys out) ->
            NoDup (dict_keys
                     (fold_left (comp_step f) l out))).
  { induction l as [|kv l IH]; intros out Hnd; simpl; auto.
    apply IH. unfold comp_step.
    destruct (f (fst kv) (snd kv)) as [[k' w]|]; auto.
    now apply dict_set_NoDup. }
  apply Hgen. constructor.
Qed.

Lemma dict_comp_Forall {V W : Type} (P : W -> Prop)
    (f : Z -> V -> option (Z * W)) (l : list (Z * V)) :
  (forall k e k' w, f k e = Some (k', w) -> P w) ->
  Forall (fun kv => P (snd kv)) (dict_comp f l).
Proof.
  intros Hf. unfold dict_comp.
  assert (Hgen : forall out, Forall (fun kv => P (snd kv)) out ->
            Forall (fun kv => P (snd kv))
                   (fold_left (comp_step f) l out)).
  { induction l as [|kv l IH]; intros out Ho; simpl; auto.
    apply IH. unfold comp_step.
    destruct (f (fst kv) (snd kv)) as [[k' w]|] eqn:Hfk; auto.
    apply dict_set_Forall; eauto. }
  apply Hgen. constructor.
Qed.

(** [itertools.product] pairs every element of the first sequence with
    every element of the second, the first varying slowest. *)
Lemma product_list_prod {X Y : Type} (a : list X) (b : list Y) :
  product a b = list_prod a b.
Proof.
  unfold product. induction a as [|x a IH]; simpl; [reflexivity|].
  now rewrite IH.
Qed.

Section GeometricProduct.
Context {E : Type} `{Backend E}.
Variable A : Algebra E.
Implicit Types (x y : MultiVector E) (mx my res : dict E).

Lemma gp_step_get k res (p : (Z * E) * (Z * E)) :
  dict_get k (gp_step A res p)
  = if gp_active A k p
    then Some (add (from_zero (dict_get k res)) (gp_term A p))
    else dict_get k res.
Proof.
  destruct p as [[ei vi] [ej vj]]. unfold gp_step, gp_active, gp_term. simpl.
  destruct (signs A ei ej =? 0) eqn:Hs; simpl; auto.
  destruct (Z.lxor ei ej =? k) eqn:Hk.
  - apply Z.eqb_eq in Hk. subst k. apply dict_get_set_same.
  - apply Z.eqb_neq in Hk. apply dict_get_set_other. congruence.
Qed.

Lemma gp_fold_get k (l : list ((Z * E) * (Z * E))) : forall res,
  dict_get k (fold_left (gp_step A) l res)
  = slot (dict_get k res) (map (gp_term A) (filter (gp_active A k) l)).
Proof.
  induction l as [|p l IH]; intros res; simpl; auto.
  rewrite IH, gp_step_get.
  destruct (gp_active A k p); simpl; auto.
  destruct (map (gp_term A) (filter (gp_active A k) l)); reflexivity.
Qed.

Lemma gp_step_NoDup res (p : (Z * E) * (Z * E)) :
  NoDup (dict_keys res) -> NoDup (dict_keys (gp_step A res p)).
Proof.
  destruct p as [[ei vi] [ej vj]]. unfold gp_step.
  destruct (negb (signs A ei ej =? 0)); auto using dict_set_NoDup.
Qed.

Lemma gp_accumulate_NoDup mx my :
  NoDup (dict_keys (gp_accumulate A mx my)).
Proof.
  unfold gp_accumulate.
  assert (Hgen : forall (l : list ((Z * E) * (Z * E))) res,
             NoDup (dict_keys res) ->
             NoDup (dict_keys (fold_left (gp_step A) l res))).
  { induction l as [|p l IH]; intros res Hnd; simpl; auto.
    apply IH. now apply gp_step_NoDup. }
  apply Hgen. constructor.
Qed.

(** The accumulation phase: under each key, the contributions of the
    pairs that combine to it, added one after the other to 0. *)
Lemma gp_accumulate_get mx my k :
  dict_get k (gp_accumulate A mx my)
  = match gp_terms A mx my k with
    | [] => None
    | ts => Some (fold_left add ts (of_int 0))
    end.
Proof.
  unfold gp_accumulate. rewrite gp_fold_get, product_list_prod.
  unfold gp_terms, slot.
  destruct (map (gp_term A) (filter (gp_active A k) (list_prod mx my)));
    reflexivity.
Qed.

Lemma drop_zeros_get res k :
  NoDup (dict_keys res) ->
  dict_get k (drop_zeros res)
  = match dict_get k res with
    | Some e => if truthy (simplify e) then Some (simplify e) else None
    | None => None
    end.
Proof.
  intros Hnd. unfold drop_zeros. rewrite dict_comp_get; auto.
  - destruct (dict_get k res) as [e|]; auto.
    destruct (truthy (simplify e)); reflexivity.
  - intros k0 e k' w. destruct (truthy (simplify e)); congruence.
Qed.

(** C1 on the code.  [codegen_gp] accumulates nothing: for every pair
    of multivectors, in either mode, its first step is the read
    [x.vals], which raises [AttributeError]; the loop over the pairs
    of entries is never entered and no mapping is returned. *)
Theorem codegen_gp_raises_attribute_error x y (symbolic : bool) :
  codegen_gp A x y symbolic = Raise AttributeError EmptyString.
Proof. reflexivity. Qed.
End GeometricProduct.

(* ------------------------------------------------------------------ *)
(** ** The inverse *)





Section Inverse.
Context {E : Type} `{Backend E}.
Variable A : Algebra E.
Implicit Types (x v : MultiVector E).







(** A pass whose adjoint was formed stops at the read [adj_x.vals]. *)
Lemma inv_body_after_adjoint x x_i (i : Z) (adj : MultiVector E) :
  inv_adjoint A x_i i = Ok adj ->
  inv_body A x x_i i = Raise AttributeError EmptyString.
Proof. intros Ha. unfold inv_body. now rewrite Ha. Qed.

Lemma inv_body_before_adjoint x x_i (i : Z) c msg :
  inv_adjoint A x_i i = Raise c msg ->
  inv_body A x x_i i = Raise c msg.
Proof. intros Ha. unfold inv_body. now rewrite Ha. Qed.

(** When the input is already purely scalar or empty no pass is made
    and [adj_x] is still unbound where the result is formed. *)
Lemma codegen_inv_without_pass x fuel :
  loop_test x = false ->
  codegen_inv A (S fuel) x = Some (Raise UnboundLocalError EmptyString).
Proof.
  intros Ht. unfold codegen_inv. cbn [inv_loop]. now rewrite Ht.
Qed.

Lemma codegen_inv_first_pass x fuel c msg :
  loop_test x = true ->
  inv_body A x x 1 = Raise c msg ->
  codegen_inv A (S fuel) x = Some (Raise c msg).
Proof.
  intros Ht Hb. unfold codegen_inv. cbn [inv_loop]. now rewrite Ht, Hb.
Qed.


End Inverse.

(* ------------------------------------------------------------------ *)
(** ** The properties on concrete inputs *)


(** The loop of the geometric product on the scenarios of section 8,
    the operands given as mappings: [gp(e1, e2)] has the single key 3
    and [gp(e1, e1)] the single key 0, each holding the product of the
    inputs. *)
Example gp_e1_e2 :
  drop_zeros (gp_accumulate space [(1, 2#1)] [(2, 3#1)]) = [(3, 6#1)].
Proof. reflexivity. Qed.

Example gp_e1_e1 :
  drop_zeros (gp_accumulate space [(1, 2#1)] [(1, 3#1)]) = [(0, 6#1)].
Proof. reflexivity. Qed.

(** A product whose terms cancel leaves no entry: the square of
    [e1 + e2] has no [e12] part. *)
Example gp_cancellation :
  drop_zeros (gp_accumulate space [(1, 1#1); (2, 1#1)] [(1, 1#1); (2, 1#1)])
  = [(0, 2#1)].
Proof. reflexivity. Qed.

(** On the multivectors themselves nothing is derived. *)
Example gp_e1_e2_on_multivectors :
  codegen_gp space (fromkeysvalues [1] [2#1]) (fromkeysvalues [2] [3#1]) true
  = Raise AttributeError EmptyString.
Proof. reflexivity. Qed.





(** C5 refuted as stated: adding 0 to a vector appends the scalar
    key. *)
Lemma add_zero_changes_support :
  mv_add (fromkeysvalues [1] [2#1]) (OpScalar (of_int 0))
  <> fromkeysvalues [1] [2#1].
Proof. vm_compute. discriminate. Qed.

(** [3 + 2 e1] keeps its keys under [+ 0]; [2 e1] gains the key 0; both
    read as before at every item. *)
Lemma add_zero_reads_the_same_witness :
  (_keys (mv_add (fromkeysvalues [0; 1] [3#1; 2#1]) (OpScalar (of_int 0)))
   = [0; 1]
   /\ forall it,
        getitem space (mv_add (fromkeysvalues [0; 1] [3#1; 2#1])
                              (OpScalar (of_int 0))) it
        = getitem space (fromkeysvalues [0; 1] [3#1; 2#1]) it)
  /\ (_keys (mv_add (fromkeysvalues [1] [2#1]) (OpScalar (of_int 0)))
      = [1; 0]
      /\ forall it,
           getitem space (mv_add (fromkeysvalues [1] [2#1])
                                 (OpScalar (of_int 0))) it
           = getitem space (fromkeysvalues [1] [2#1]) it).
Proof.
  split.
  - destruct (add_zero_reads_the_same space
                (fromkeysvalues [0; 1] [3#1; 2#1]) eq_refl)
      as (Hk & _ & _ & Hr).
    split; [exact Hk|]. apply Hr. intros c Hc.
    injection Hc as <-. reflexivity.
  - destruct (add_zero_reads_the_same space (fromkeysvalues [1] [2#1])
                eq_refl) as (Hk & _ & _ & Hr).
    split; [exact Hk|]. apply Hr. intros c Hc. discriminate.
Defined.

Lemma getitem_absent_key_is_zero_witness :
  getitem space (fromkeysvalues [1] [2#1]) (KStr "e12") = Ok (0#1).
Proof.
  exact (getitem_absent_key_is_zero space (fromkeysvalues [1] [2#1])
           (KStr "e12") 3 eq_refl eq_refl).
Defined.

Lemma getitem_unknown_name_raises_witness :
  getitem space (fromkeysvalues [1] [2#1]) (KStr "e21")
  = Raise KeyError EmptyString
  /\ contains space (fromkeysvalues [1] [2#1]) (KStr "e21")
     = Raise KeyError EmptyString.
Proof.
  apply (proj1 (getitem_unknown_name_raises space
                  (fromkeysvalues [1] [2#1]) (KStr "e21"))).
  reflexivity.
Defined.

Lemma dual_auto_unsupported_raises_witness :
  dual doubly_degenerate (fromkeysvalues [4] [1#1]) "auto"
  = Raise Exception
      "Cannot select a suitable dual in auto mode for this algebra."
  /\ undual doubly_degenerate (fromkeysvalues [4] [1#1]) "auto"
     = Raise Exception
         "Cannot select a suitable undual in auto mode for this algebra.".
Proof.
  apply (dual_auto_unsupported_raises doubly_degenerate
           (fromkeysvalues [4] [1#1])); vm_compute; discriminate.
Defined.

(** [e1 + 5 e2] plus [-e1 + 3 e3]: the key 1 stays, holding 0. *)
Lemma add_support_is_union_witness :
  _keys (mv_add (fromkeysvalues [1; 2] [1#1; 5#1])
                (OpMV (fromkeysvalues [1; 4] [-1#1; 3#1]))) = [1; 2; 4]
  /\ dict_get 1 (items (mv_add (fromkeysvalues [1; 2] [1#1; 5#1])
                               (OpMV (fromkeysvalues [1; 4] [-1#1; 3#1]))))
     = Some (0#1).
Proof.
  destruct (add_support_is_union (fromkeysvalues [1; 2] [1#1; 5#1])
              (fromkeysvalues [1; 4] [-1#1; 3#1]) eq_refl eq_refl)
    as (_ & Hk & _ & Hv).
  split; [exact Hk|]. apply (Hv 1 (1#1) (-1#1)); reflexivity.
Defined.

(* ------------------------------------------------------------------ *)
(** ** More about the multivector value *)

Lemma dict_of_items_keys_NoDup {V : Type} (l : list (Z * V)) :
  NoDup (dict_keys (dict_of_items l)).
Proof.
  unfold dict_of_items.
  assert (Hgen : forall acc : dict V, NoDup (dict_keys acc) ->
            NoDup (dict_keys
                     (fold_left (fun m kv => dict_set (fst kv) (snd kv) m)
                                l acc))).
  { induction l as [|kv l IH]; intros acc Hnd; simpl; auto.
    apply IH. now apply dict_set_NoDup. }
  apply Hgen. constructor.
Qed.

Lemma dict_get_map_values {V W : Type} (f : Z -> V -> W) (k : Z)
    (l : list (Z * V)) :
  dict_get k (map (fun kv => (fst kv, f (fst kv) (snd kv))) l)
  = option_map (f k) (dict_get k l).
Proof.
  induction l as [|[k' v] l IH]; simpl; auto.
  destruct (k' =? k) eqn:Hk; auto.
  apply Z.eqb_eq in Hk. now subst.
Qed.

Lemma combine_map_values {V W : Type} (f : V -> W) (ks : list Z)
    (vs : list V) :
  combine ks (map f vs) = map (fun kv => (fst kv, f (snd kv))) (combine ks vs).
Proof.
  revert vs. induction ks as [|k ks IH]; intros [|v vs]; simpl; auto.
  now rewrite IH.
Qed.

Lemma combine_map_items {V W : Type} (f : Z * V -> W) (ks : list Z)
    (vs : list V) :
  List.length ks = List.length vs ->
  combine ks (map f (combine ks vs))
  = map (fun kv => (fst kv, f kv)) (combine ks vs).
Proof.
  revert vs. induction ks as [|k ks IH]; intros [|v vs] Hl; simpl in *;
    try discriminate; auto.
  rewrite IH by lia. reflexivity.
Qed.

Lemma filter_rejects_all {X : Type} (f : X -> bool) (l : list X) :
  (forall a, In a l -> f a = false) -> filter f l = [].
Proof.
  induction l as [|a l IH]; intros Hall; simpl; auto.
  rewrite (Hall a (or_introl eq_refl)). apply IH.
  intros b Hb. apply Hall. now right.
Qed.

Lemma popcount_nonneg (k : Z) : 0 <= popcount k.
Proof.
  assert (Hp : forall p, 0 < popcount_pos p).
  { induction p as [q IH|q IH|]; cbn [popcount_pos]; lia. }
  destruct k as [|p|p]; cbn [popcount]; try lia; specialize (Hp p); lia.
Qed.

Lemma reversion_sign (n : Z) :
  0 <= n -> (-1) ^ (n / 2) = if n mod 4 <? 2 then 1 else -1.
Proof.
  intros Hn.
  pose proof (Z.div_mod n 4 ltac:(lia)) as Hd.
  pose proof (Z.mod_pos_bound n 4 ltac:(lia)) as Hb.
  set (q := n / 4) in *. set (m := n mod 4) in *.
  assert (Hq : 0 <= q) by (apply Z.div_pos; lia).
  assert (Hhalf : n / 2 = 2 * q + m / 2).
  { replace n with (m + (2 * q) * 2) by lia.
    rewrite Z.div_add by lia. lia. }
  rewrite Hhalf, Z.pow_add_r, Z.pow_mul_r; try lia.
  - change ((-1) ^ 2) with 1. rewrite Z.pow_1_l by lia.
    assert (Hm : m = 0 \/ m = 1 \/ m = 2 \/ m = 3) by lia.
    destruct Hm as [-> | [-> | [-> | ->]]]; reflexivity.
  - apply Z.div_pos; lia.
Qed.

Lemma set_union_In (s : string) (a b : list string) :
  In s (set_union a b) <-> In s a \/ In s b.
Proof.
  induction b as [|t b IH]; simpl.
  - tauto.
  - destruct (existsb (String.eqb t) (set_union a b)) eqn:He.
    + rewrite IH. split; [tauto|]. intros [Ha|[Ht|Hb]]; auto.
      subst t. apply existsb_exists in He. destruct He as [u [Hu Heq]].
      apply String.eqb_eq in Heq. subst u. now apply IH.
    + simpl. rewrite IH. tauto.
Qed.

Section MoreMultiVectorFacts.
Context {E : Type} `{Backend E}.
Variable A : Algebra E.
Variable apply_lambda : Lambda E -> list E -> result (list E).
Implicit Types (x y v : MultiVector E).

Lemma mv_add_always_well_formed x (o : operand E) :
  well_formed (mv_add x o) = true.
Proof.
  unfold well_formed, mv_add. simpl.
  unfold dict_keys, dict_values. rewrite !length_map, Nat.eqb_refl. simpl.
  apply NoDup_distinct. apply add_fold_NoDup.
  apply dict_of_items_keys_NoDup.
Qed.

Lemma mv_neg_items v :
  items (mv_neg v) = map (fun kv => (fst kv, neg (snd kv))) (items v).
Proof. unfold items, mv_neg. simpl. apply combine_map_values. Qed.

Lemma mv_neg_well_formed v :
  well_formed v = true -> well_formed (mv_neg v) = true.
Proof.
  unfold well_formed, mv_neg. simpl. now rewrite length_map.
Qed.

Lemma mv_invert_well_formed v :
  well_formed v = true -> well_formed (mv_invert v) = true.
Proof.
  intros Hw. pose proof (well_formed_length v Hw) as Hl.
  unfold well_formed in *. unfold mv_invert, items. simpl.
  rewrite length_map, length_combine, <- Hl, Nat.min_id.
  rewrite Nat.eqb_refl. simpl. apply andb_prop in Hw. tauto.
Qed.

(** X1.  The result of [+] and of [-] always has as many values as
    keys and no key twice, whatever the operands; negation and
    reversion keep that invariant. *)
Theorem arithmetic_keeps_invariant x (o : operand E) :
  well_formed (mv_add x o) = true
  /\ well_formed (mv_sub x o) = true
  /\ (well_formed x = true ->
      well_formed (mv_neg x) = true
      /\ well_formed (mv_invert x) = true).
Proof.
  split; [apply mv_add_always_well_formed|].
  split; [apply mv_add_always_well_formed|].
  intros Hx. split.
  - now apply mv_neg_well_formed.
  - now apply mv_invert_well_formed.
Qed.

(** X2.  [x - y] is [x + (-y)]: its keys are those of [x] followed by
    the keys of [y] that [x] lacks; a shared key holds
    [x[k] + (-y[k])], a key of [y] alone holds [-y[k]].  In particular
    [x - x] keeps every key of [x]. *)
Theorem sub_merges_negated x y :
  well_formed x = true -> well_formed y = true ->
  (forall k, dict_get k (items (mv_sub x (OpMV y)))
             = merge (dict_get k (items x))
                     (option_map neg (dict_get k (items y))))
  /\ _keys (mv_sub x (OpMV y))
     = _keys x ++ filter (fun k => negb (mem k (_keys x))) (_keys y)
  /\ _keys (mv_sub x (OpMV x)) = _keys x.
Proof.
  intros Hx Hy.
  assert (Hkeys : forall z, well_formed z = true ->
            _keys (mv_sub x (OpMV z))
            = _keys x ++ filter (fun k => negb (mem k (_keys x))) (_keys z)).
  { intros z Hz. unfold mv_sub, operand_neg.
    rewrite mv_add_keys; auto using mv_neg_well_formed. }
  split; [|split].
  - intros k. unfold mv_sub, operand_neg.
    rewrite mv_add_items_get; auto using mv_neg_well_formed.
    rewrite mv_neg_items.
    now rewrite (dict_get_map_values (fun _ c => neg c)).
  - now apply Hkeys.
  - rewrite Hkeys by assumption.
    replace (filter (fun k => negb (mem k (_keys x))) (_keys x))
      with (@nil Z); [apply app_nil_r|].
    symmetry. apply filter_rejects_all. intros k Hk.
    now rewrite (proj2 (mem_In k (_keys x)) Hk).
Qed.

Lemma mv_invert_items v :
  List.length (_keys v) = List.length (_values v) ->
  items (mv_invert v)
  = map (fun kv =>
           (fst kv,
            mul (of_int ((-1) ^ (popcount (fst kv) / 2))) (snd kv)))
        (items v).
Proof.
  intros Hl. unfold mv_invert, items. simpl.
  now rewrite combine_map_items.
Qed.

(** X3.  Reversion keeps the keys and multiplies the coefficient of a
    key of grade [g] by [+1] when [g mod 4] is 0 or 1 and by [-1] when
    it is 2 or 3. *)
Theorem reversion_sign_by_grade v :
  List.length (_keys v) = List.length (_values v) ->
  _keys (mv_invert v) = _keys v
  /\ items (mv_invert v)
     = map (fun kv =>
              (fst kv,
               mul (of_int (if popcount (fst kv) mod 4 <? 2 then 1 else -1))
                   (snd kv)))
           (items v).
Proof.
  intros Hl. split; [reflexivity|].
  rewrite mv_invert_items by assumption.
  apply map_ext. intros [k c]. simpl.
  now rewrite reversion_sign by apply popcount_nonneg.
Qed.

(** X4.  Reverting twice gives the multivector back, as soon as
    multiplying a coefficient twice by the same sign gives it back. *)
Theorem reversion_involution v :
  List.length (_keys v) = List.length (_values v) ->
  (forall k c, In (k, c) (items v) ->
     mul (of_int ((-1) ^ (popcount k / 2)))
         (mul (of_int ((-1) ^ (popcount k / 2))) c) = c) ->
  mv_invert (mv_invert v) = v.
Proof.
  intros Hl Hlaw.
  assert (Hl' : List.length (_keys (mv_invert v))
                = List.length (_values (mv_invert v))).
  { unfold mv_invert, items. simpl.
    rewrite length_map, length_combine, <- Hl. now rewrite Nat.min_id. }
  destruct v as [ks vs]. simpl in Hl.
  unfold mv_invert at 1. rewrite mv_invert_items by assumption.
  cbn [_keys mv_invert]. f_equal.
  rewrite map_map. cbn [fst snd].
  rewrite <- (values_of_combine ks vs Hl) at 2.
  apply map_ext_in. intros [k c] Hin. simpl. now apply Hlaw.
Qed.

(** X5.  A name reads like the key it stands for: when [canon2bin]
    sends the name to a key of [bin2canon], [v[name]] is [v[key]] and
    [name in v] is [key in v]. *)
Theorem name_reads_like_key v (s : string) (k : Z) :
  canon2bin A s = Some k -> bin2canon A k <> None ->
  getitem A v (KStr s) = getitem A v (KInt k)
  /\ contains A v (KStr s) = contains A v (KInt k).
Proof.
  intros Hs Hk. unfold getitem, contains, resolve. rewrite Hs.
  destruct (bin2canon A k); [now split | congruence].
Qed.

(** X6.  On a well-formed multivector membership and indexing agree:
    [item in v] tells whether the key is stored, a stored key reads as
    the value zipped with it, any other key as 0, and no read of a
    resolvable item raises. *)
Theorem membership_and_indexing_agree v (it : item) (k : Z) :
  well_formed v = true -> resolve A it = Ok k ->
  contains A v it = Ok (mem k (_keys v))
  /\ (mem k (_keys v) = true ->
      exists c, getitem A v it = Ok c /\ In (k, c) (items v))
  /\ (mem k (_keys v) = false -> getitem A v it = Ok (of_int 0)).
Proof.
  intros Hw Hr. split; [|split].
  - unfold contains. now rewrite Hr.
  - intros Hm. rewrite (getitem_items A v it k Hw Hr).
    apply mem_In in Hm. rewrite <- (items_keys v Hw) in Hm.
    apply dict_get_In in Hm.
    destruct (dict_get k (items v)) as [c|] eqn:Hg; [|congruence].
    exists c. split; auto.
    clear - Hg. induction (items v) as [|[k' c'] l IH]; simpl in *;
      [discriminate|].
    destruct (k' =? k) eqn:Hk.
    + apply Z.eqb_eq in Hk. left. congruence.
    + right. auto.
  - intros Hm. unfold getitem. rewrite Hr. simpl.
    apply mem_false in Hm. apply index_of_None in Hm. now rewrite Hm.
Qed.

Lemma reduce_union_members (cs : list E) : forall tot,
  (forall c, In c cs -> free_symbols c <> None) ->
  exists u, reduce_union tot cs = Ok u
            /\ forall s, In s u <->
                 In s tot
                 \/ exists c fs, In c cs /\ free_symbols c = Some fs
                                 /\ In s fs.
Proof.
  induction cs as [|c cs IH]; intros tot Hall; simpl.
  - exists tot. split; [reflexivity|]. intros s. split.
    + intros Ht. now left.
    + intros [Ht|[c [fs [[] _]]]]. exact Ht.
  - unfold attr_free_symbols.
    destruct (free_symbols c) as [fs|] eqn:Hc.
    2:{ exfalso. apply (Hall c); [now left | exact Hc]. }
    simpl. destruct (IH (set_union tot fs)) as [u [Hu Hmem]].
    { intros c' Hc'. apply Hall. now right. }
    exists u. split; [exact Hu|]. intros s. rewrite Hmem, set_union_In.
    split.
    + intros [[Ht|Hf]|[c' [fs' [Hin [Hfs Hs]]]]].
      * now left.
      * right. exists c, fs. repeat split; auto.
      * right. exists c', fs'. repeat split; auto.
    + intros [Ht|[c' [fs' [[Heq|Hin] [Hfs Hs]]]]].
      * left. now left.
      * subst c'. left. right. congruence.
      * right. exists c', fs'. repeat split; auto.
Qed.

(** The free symbols of a multivector with at least one coefficient,
    all of them carrying a set: the symbols of its coefficients. *)
Lemma mv_free_symbols_members v :
  _values v <> [] ->
  (forall c, In c (_values v) -> free_symbols c <> None) ->
  exists u, mv_free_symbols v = Ok u
            /\ forall s, In s u <->
                 exists c fs, In c (_values v)
                              /\ free_symbols c = Some fs /\ In s fs.
Proof.
  intros Hne Hall.
  unfold mv_free_symbols. destruct (_values v) as [|c cs]; [congruence|].
  unfold attr_free_symbols.
  destruct (free_symbols c) as [fs|] eqn:Hc;
    [|exfalso; apply (Hall c); simpl; auto].
  simpl. destruct (reduce_union_members cs fs) as [u [Hu Hmem]].
  { intros c' Hc'. apply Hall. now right. }
  exists u. split; auto. intros s. rewrite Hmem. split.
  - intros [Hf|[c' [fs' [Hin [Hfs' Hs]]]]].
    + exists c, fs. simpl. auto.
    + exists c', fs'. simpl. auto.
  - intros [c' [fs' [[Heq|Hin] [Hfs' Hs]]]].
    + subst c'. left. congruence.
    + right. exists c', fs'. auto.
Qed.

(** X7.  Calling a multivector with at least one coefficient, all of
    them carrying a [free_symbols] set: when every set is empty the
    call returns the multivector itself; when some coefficient has a
    free symbol the call raises [AttributeError] whatever the
    arguments, because [self._callable] reads [self.vals] before any
    callable is built or run. *)
Theorem call_returns_self_or_raises v (args : list E) :
  _values v <> [] ->
  (forall c, In c (_values v) -> free_symbols c <> None) ->
  ((forall c, In c (_values v) -> free_symbols c = Some []) ->
   mv_call A apply_lambda v args = Ok v)
  /\ ((exists c fs s, In c (_values v) /\ free_symbols c = Some fs
                      /\ In s fs) ->
      mv_call A apply_lambda v args = Raise AttributeError EmptyString).
Proof.
  intros Hne Hall.
  destruct (mv_free_symbols_members v Hne Hall) as [u [Hu Hmem]]. split.
  - intros Hempty. unfold mv_call. rewrite Hu. simpl.
    destruct u as [|s u]; auto.
    destruct (proj1 (Hmem s) (or_introl eq_refl)) as [c [fs [Hin [Hc Hs]]]].
    rewrite (Hempty c Hin) in Hc. injection Hc as <-. destruct Hs.
  - intros [c [fs [s [Hin [Hc Hs]]]]].
    unfold mv_call. rewrite Hu. simpl.
    destruct u as [|s' u]; [|reflexivity].
    exfalso. apply (proj2 (Hmem s)). exists c, fs. auto.
Qed.

(** X8.  A kind other than ['polarity'], ['hodge'] and ['auto'] makes
    [dual] and [undual] raise [ValueError] with a message naming the
    kind, in every algebra. *)
Theorem dual_unknown_kind_raises v (kind : string) :
  kind <> "polarity"%string -> kind <> "hodge"%string ->
  kind <> "auto"%string ->
  dual A v kind
  = Raise ValueError ("No dual found for kind=" ++ kind ++ ".")
  /\ undual A v kind
     = Raise ValueError ("No undual found for kind=" ++ kind ++ ".").
Proof.
  intros Hp Hh Ha. apply String.eqb_neq in Hp, Hh, Ha.
  unfold dual, undual. rewrite Hp, Hh, Ha. simpl. now split.
Qed.
End MoreMultiVectorFacts.

(* ------------------------------------------------------------------ *)
(** ** Grade selection, Hodge duality and construction *)

Lemma NoDup_map_injective {X Y : Type} (g : X -> Y) (l : list X) :
  (forall a b, g a = g b -> a = b) -> NoDup l -> NoDup (map g l).
Proof.
  intros Hinj. induction 1 as [|a l Hn Hnd IH]; simpl; constructor; auto.
  intros Hin. apply in_map_iff in Hin. destruct Hin as [b [Hb Hin]].
  apply Hinj in Hb. now subst.
Qed.

Lemma flat_map_ext_in {X Y : Type} (f g : X -> list Y) (l : list X) :
  (forall a, In a l -> f a = g a) -> flat_map f l = flat_map g l.
Proof.
  induction l as [|a l IH]; intros Hall; simpl; auto.
  rewrite (Hall a (or_introl eq_refl)). f_equal. apply IH.
  intros b Hb. apply Hall. now right.
Qed.

Lemma mapM_length {X Y : Type} (f : X -> result Y) (l : list X) :
  forall l', mapM f l = Ok l' -> List.length l' = List.length l.
Proof.
  induction l as [|a l IH]; simpl; intros l' Hm.
  - injection Hm as <-. reflexivity.
  - destruct (f a) as [b|c msg]; simpl in Hm; [|discriminate].
    destruct (mapM f l) as [bs|c msg]; simpl in Hm; [|discriminate].
    injection Hm as <-. simpl. f_equal. now apply IH.
Qed.

(** A comprehension that renames the keys one-to-one keeps every
    entry, in order. *)
Lemma dict_comp_renaming {V W : Type} (g : Z -> Z) (h : Z -> V -> W)
    (l : list (Z * V)) :
  (forall a b, g a = g b -> a = b) -> NoDup (map fst l) ->
  dict_comp (fun k v => Some (g k, h k v)) l
  = map (fun kv => (g (fst kv), h (fst kv) (snd kv))) l.
Proof.
  intros Hinj Hnd. unfold dict_comp.
  assert (Hgen : forall acc : dict W,
            NoDup (dict_keys acc ++ map g (map fst l)) ->
            fold_left (comp_step (fun k v => Some (g k, h k v))) l acc
            = acc ++ map (fun kv => (g (fst kv), h (fst kv) (snd kv))) l).
  { clear Hnd. induction l as [|[k v] l IH]; intros acc Hacc; simpl.
    - now rewrite app_nil_r.
    - unfold comp_step at 2. simpl. rewrite dict_set_fresh.
      + rewrite IH.
        * now rewrite <- app_assoc.
        * unfold dict_keys in *. rewrite map_app, <- app_assoc. exact Hacc.
      + simpl in Hacc. apply NoDup_remove_2 in Hacc.
        intros Hin. apply Hacc. apply in_or_app. now left. }
  rewrite Hgen; [reflexivity|]. simpl.
  now apply NoDup_map_injective.
Qed.

Section GradeAndDuality.
Context {E : Type} `{Backend E}.
Variable A : Algebra E.
Implicit Types (v w : MultiVector E).

Lemma items_get_stored v k :
  well_formed v = true ->
  (mem k (_keys v) = true -> dict_get k (items v) <> None)
  /\ (mem k (_keys v) = false -> dict_get k (items v) = None).
Proof.
  intros Hw. split; intros Hm.
  - apply dict_get_In. unfold dict_keys. rewrite items_keys by assumption.
    now apply mem_In.
  - apply dict_get_None. unfold dict_keys.
    rewrite items_keys by assumption. now apply mem_false.
Qed.

Lemma grade_fill_entries v (ks : list Z) :
  well_formed v = true ->
  (forall k, In k ks -> In k (_keys v) -> bin2canon A k <> None) ->
  NoDup ks ->
  forall vals : dict E,
    (forall k, In k ks -> ~ In k (dict_keys vals)) ->
    grade_fill A v ks vals = Ok (vals ++ grade_entries v ks).
Proof.
  intros Hw. induction ks as [|k ks IH]; intros Hval Hnd vals Hfresh.
  - simpl. now rewrite app_nil_r.
  - inversion Hnd as [|? ? Hnin Hnd']; subst. cbn [grade_fill].
    destruct (items_get_stored v k Hw) as [Hin Hout].
    destruct (mem k (_keys v)) eqn:Hm.
    + assert (Hr : resolve A (KInt k) = Ok k).
      { unfold resolve. destruct (bin2canon A k) eqn:Hb; auto.
        exfalso. apply (Hval k); simpl; auto. now apply mem_In. }
      rewrite (getitem_items A v (KInt k) k Hw Hr).
      cbn [bind grade_entries flat_map].
      destruct (dict_get k (items v)) as [c|] eqn:Hg;
        [|exfalso; now apply Hin].
      rewrite dict_set_fresh by (apply Hfresh; simpl; auto).
      rewrite IH; auto.
      * now rewrite <- app_assoc.
      * intros k' Hk'. apply Hval. now right.
      * intros k' Hk' Hin'. unfold dict_keys in Hin'.
        rewrite map_app in Hin'. apply in_app_or in Hin'.
        destruct Hin' as [Hin'|[Heq|[]]].
        -- apply (Hfresh k'); [now right | exact Hin'].
        -- simpl in Heq. subst k'. contradiction.
    + cbn [grade_entries flat_map]. rewrite (Hout eq_refl). simpl.
      apply IH; auto.
      * intros k' Hk'. apply Hval. now right.
      * intros k' Hk'. apply Hfresh. now right.
Qed.

Lemma grade_entries_keys v (ks : list Z) :
  well_formed v = true ->
  map fst (grade_entries v ks) = filter (fun k => mem k (_keys v)) ks.
Proof.
  intros Hw. induction ks as [|k ks IH]; simpl; auto.
  rewrite map_app, IH. destruct (items_get_stored v k Hw) as [Hin Hout].
  destruct (mem k (_keys v)) eqn:Hm.
  - destruct (dict_get k (items v)); [reflexivity|].
    exfalso. now apply Hin.
  - now rewrite (Hout eq_refl).
Qed.

Lemma grade_entries_get v (ks : list Z) k :
  dict_get k (grade_entries v ks)
  = if mem k ks then dict_get k (items v) else None.
Proof.
  induction ks as [|k' ks IH]; simpl; auto.
  destruct (k' =? k) eqn:Hk.
  - apply Z.eqb_eq in Hk. subst k'. simpl.
    destruct (dict_get k (items v)) as [c|] eqn:Hg; simpl.
    + now rewrite Z.eqb_refl.
    + rewrite IH. destruct (mem k ks); auto.
  - simpl. destruct (dict_get k' (items v)) as [c|]; simpl.
    + now rewrite Hk.
    + exact IH.
Qed.

Lemma grade_result v (g : grades_arg) :
  let idx := indices_for_grades A
               (match g with GInt z => [z] | GSeq gs => gs end) in
  well_formed v = true -> NoDup idx ->
  (forall k, In k idx -> In k (_keys v) -> bin2canon A k <> None) ->
  grade A v g
  = Ok (fromkeysvalues (map fst (grade_entries v idx))
                       (map snd (grade_entries v idx))).
Proof.
  intros idx Hw Hnd Hval. unfold grade. fold idx.
  rewrite (grade_fill_entries v idx Hw Hval Hnd []); [reflexivity|].
  intros k _ [].
Qed.

Lemma entries_well_formed (l : list (Z * E)) :
  NoDup (map fst l) ->
  well_formed (fromkeysvalues (map fst l) (map snd l)) = true.
Proof.
  intros Hnd. unfold well_formed. simpl.
  rewrite !length_map, Nat.eqb_refl. simpl. now apply NoDup_distinct.
Qed.

(** X9.  [v.grade(g)] keeps exactly the entries of [v] whose key is in
    the key list of [g], in the order of that list, each with the
    value [v] stores for it; the result is well formed, and it is the
    empty multivector when [v] has no key of those grades.  (The key
    list is duplicate-free and its keys that [v] stores are named in
    [bin2canon].) *)
Theorem grade_keeps_stored_entries v (g : grades_arg) :
  let idx := indices_for_grades A
               (match g with GInt z => [z] | GSeq gs => gs end) in
  well_formed v = true -> NoDup idx ->
  (forall k, In k idx -> In k (_keys v) -> bin2canon A k <> None) ->
  exists w,
    grade A v g = Ok w
    /\ well_formed w = true
    /\ _keys w = filter (fun k => mem k (_keys v)) idx
    /\ (forall k, dict_get k (items w)
                  = if mem k idx then dict_get k (items v) else None)
    /\ ((forall k, In k idx -> ~ In k (_keys v)) ->
        w = fromkeysvalues [] []).
Proof.
  intros idx Hw Hnd Hval.
  exists (fromkeysvalues (map fst (grade_entries v idx))
                         (map snd (grade_entries v idx))).
  assert (Hk : map fst (grade_entries v idx)
               = filter (fun k => mem k (_keys v)) idx)
    by now apply grade_entries_keys.
  split; [now apply grade_result|]. split; [|split; [|split]].
  - apply entries_well_formed. rewrite Hk. now apply NoDup_filter.
  - exact Hk.
  - intros k. unfold items. simpl.
    fold (dict_keys (grade_entries v idx)).
    fold (dict_values (grade_entries v idx)).
    rewrite combine_keys_values. apply grade_entries_get.
  - intros Hnone.
    assert (Hnil : grade_entries v idx = []).
    { unfold grade_entries.
      rewrite (flat_map_ext_in _ (fun _ => []) idx).
      - clear. induction idx; simpl; auto.
      - intros k Hk'. destruct (items_get_stored v k Hw) as [_ Hout].
        rewrite Hout; auto. apply mem_false. now apply Hnone. }
    now rewrite Hnil.
Qed.

(** X10.  Selecting the same grades twice changes nothing more:
    [v.grade(g).grade(g)] is [v.grade(g)]. *)
Theorem grade_idempotent v (g : grades_arg) :
  let idx := indices_for_grades A
               (match g with GInt z => [z] | GSeq gs => gs end) in
  well_formed v = true -> NoDup idx ->
  (forall k, In k idx -> In k (_keys v) -> bin2canon A k <> None) ->
  exists w, grade A v g = Ok w /\ grade A w g = Ok w.
Proof.
  intros idx Hw Hnd Hval.
  set (l := grade_entries v idx).
  assert (Hk : map fst l = filter (fun k => mem k (_keys v)) idx)
    by now apply grade_entries_keys.
  assert (Hwf : well_formed (fromkeysvalues (map fst l) (map snd l)) = true).
  { apply entries_well_formed. rewrite Hk. now apply NoDup_filter. }
  exists (fromkeysvalues (map fst l) (map snd l)).
  split; [now apply grade_result|].
  rewrite grade_result; auto.
  - fold idx.
    assert (Hl : grade_entries (fromkeysvalues (map fst l) (map snd l)) idx
                 = l).
    { unfold l at 3. unfold grade_entries at 1 2.
      apply flat_map_ext_in. intros k Hin.
      unfold items. simpl. fold (dict_keys l). fold (dict_values l).
      rewrite combine_keys_values. unfold l.
      rewrite grade_entries_get.
      now rewrite (proj2 (mem_In k idx) Hin). }
    now rewrite Hl.
  - intros k Hin Hk'. apply Hval; auto. simpl in Hk'. rewrite Hk in Hk'.
    apply filter_In in Hk'. apply mem_In. tauto.
Qed.

(** The constructor on a mapping that is a list of entries with
    distinct valid keys. *)
Lemma MultiVector_new_entries (l : list (Z * E)) :
  l <> [] ->
  (forall k, In k (map fst l) ->
     mem k (indices_for_grades A (every_grade A)) = true) ->
  MultiVector_new A l = Ok (fromkeysvalues (map fst l) (map snd l)).
Proof.
  intros Hne Hval. unfold MultiVector_new.
  destruct l as [|e l]; [congruence|].
  fold (every_grade A). unfold dict_keys, dict_values.
  replace (forallb _ (map fst (e :: l))) with true; [reflexivity|].
  symmetry. apply forallb_forall. exact Hval.
Qed.

(** X11.  The Hodge dual and undual undo each other up to the square
    of the sign: with the descriptor's constructor being the class's
    own and every key of [v] and its complement a key of the algebra,
    [dual] sends each key [k] to [len - 1 - k] with the coefficient
    multiplied by [signs[k, len - 1 - k]], and [undual] of that is
    [v] with every coefficient multiplied twice by that sign; it is
    [v] itself when that double multiplication is neutral. *)
Theorem hodge_round_trip v :
  (forall m, multivector A m = MultiVector_new A m) ->
  well_formed v = true -> _keys v <> [] ->
  (forall k, In k (_keys v) ->
     mem k (indices_for_grades A (every_grade A)) = true
     /\ mem (hodge_key A k) (indices_for_grades A (every_grade A)) = true) ->
  let twice := fun kv : Z * E =>
                 mul (of_int (signs A (fst kv) (hodge_key A (fst kv))))
                     (mul (of_int (signs A (fst kv) (hodge_key A (fst kv))))
                          (snd kv)) in
  exists w,
    dual A v "hodge" = Ok w
    /\ _keys w = map (hodge_key A) (_keys v)
    /\ undual A w "hodge"
       = Ok (fromkeysvalues (_keys v) (map twice (items v)))
    /\ ((forall kv, In kv (items v) -> twice kv = snd kv) ->
        undual A w "hodge" = Ok v).
Proof.
  intros Hmk Hw Hne Hval twice.
  assert (Hinj : forall a b, hodge_key A a = hodge_key A b -> a = b).
  { unfold hodge_key. intros a b. lia. }
  assert (Hinv : forall k, hodge_key A (hodge_key A k) = k).
  { unfold hodge_key. intros k. lia. }
  pose proof (well_formed_length v Hw) as Hlen.
  pose proof (items_keys v Hw) as Hik.
  assert (Hnd : NoDup (map fst (items v))).
  { rewrite Hik. now apply well_formed_NoDup. }
  set (h1 := fun (k : Z) (c : E) =>
               mul (of_int (signs A k (hodge_key A k))) c).
  set (l1 := map (fun kv => (hodge_key A (fst kv), h1 (fst kv) (snd kv)))
                 (items v)).
  assert (Hk1 : map fst l1 = map (hodge_key A) (_keys v)).
  { unfold l1. rewrite map_map. simpl. now rewrite <- Hik, map_map. }
  assert (Hl1 : l1 <> []).
  { unfold l1. intros Hn. apply map_eq_nil in Hn.
    rewrite Hn in Hik. simpl in Hik. congruence. }
  assert (Hd : dual A v "hodge"
               = Ok (fromkeysvalues (map fst l1) (map snd l1))).
  { unfold dual. simpl. rewrite Hmk.
    change (fun (eI : Z) (val : E) =>
              Some (alg_len A - 1 - eI,
                    mul (of_int (signs A eI (alg_len A - 1 - eI))) val))
      with (fun (k : Z) (c : E) => Some (hodge_key A k, h1 k c)).
    rewrite dict_comp_renaming by assumption. fold l1.
    apply MultiVector_new_entries.
    - exact Hl1.
    - intros k Hk. rewrite Hk1 in Hk. apply in_map_iff in Hk.
      destruct Hk as [k0 [<- Hk0]]. now apply Hval. }
  set (w := fromkeysvalues (map fst l1) (map snd l1)).
  assert (Hiw : items w = l1).
  { unfold w, items. simpl. fold (dict_keys l1). fold (dict_values l1).
    apply combine_keys_values. }
  assert (Hu : undual A w "hodge"
               = Ok (fromkeysvalues (_keys v) (map twice (items v)))).
  { unfold undual. simpl. rewrite Hmk. rewrite Hiw.
    set (h2 := fun (k : Z) (c : E) =>
                 mul (of_int (signs A (hodge_key A k) k)) c).
    change (fun (eI : Z) (val : E) =>
              Some (alg_len A - 1 - eI,
                    mul (of_int (signs A (alg_len A - 1 - eI) eI)) val))
      with (fun (k : Z) (c : E) => Some (hodge_key A k, h2 k c)).
    rewrite dict_comp_renaming; auto.
    2:{ rewrite Hk1. apply NoDup_map_injective; auto.
        now apply well_formed_NoDup. }
    rewrite MultiVector_new_entries.
    - f_equal. unfold l1. rewrite !map_map. simpl. f_equal.
      + rewrite <- Hik. apply map_ext. intros kv. apply Hinv.
      + apply map_ext. intros kv. unfold twice, h2, h1.
        now rewrite Hinv.
    - intros Hn. apply map_eq_nil in Hn. now apply Hl1.
    - intros k Hk. rewrite map_map in Hk. simpl in Hk.
      apply in_map_iff in Hk. destruct Hk as [kv [<- Hkv]].
      unfold l1 in Hkv. apply in_map_iff in Hkv.
      destruct Hkv as [kv0 [<- Hkv0]]. simpl. rewrite Hinv.
      apply Hval. rewrite <- Hik. now apply in_map. }
  exists w. split; [exact Hd|]. split; [exact Hk1|].
  split; [exact Hu|].
  intros Hlaw. rewrite Hu. f_equal. destruct v as [ks vs].
  simpl in *. f_equal.
  rewrite <- (values_of_combine ks vs Hlen) at 2.
  apply map_ext_in. exact Hlaw.
Qed.
End GradeAndDuality.

(* ------------------------------------------------------------------ *)
(** ** The constructor *)

Section Constructor.
Context {E : Type} `{Backend E}.
Variable A : Algebra E.
Variable symbolcls : string -> E.
Variable sympify : string -> E.
Implicit Types (v : MultiVector E).

Lemma new_select_length values keys name gs ks (vs : list (pyvalue E)) :
  new_select A symbolcls values keys name gs = Ok (ks, vs) ->
  List.length ks = List.length vs.
Proof.
  unfold new_select. destruct values as [m|seqv].
  - destruct m as [|e m]; [discriminate|].
    intros Hs. injection Hs as <- <-. simpl. now rewrite !length_map.
  - destruct ((Z.of_nat (List.length seqv) =? alg_len A)
              && negb (given keys)).
    { intros Hs. injection Hs as <- <-.
      now rewrite !length_map, length_seq. }
    destruct (Nat.eqb (List.length seqv)
                      (List.length (indices_for_grades A gs))
              && negb (given keys)) eqn:H3.
    { intros Hs. injection Hs as <- <-. rewrite length_map.
      apply andb_prop in H3. destruct H3 as [H3 _].
      apply Nat.eqb_eq in H3. now rewrite H3. }
    destruct (negb (String.eqb name EmptyString)
              && Nat.eqb (List.length seqv) 0).
    { destruct (mapM (new_symbol A symbolcls name) _) as [syms|c msg] eqn:Hm;
        simpl; intros Hs; [|discriminate].
      injection Hs as <- <-. symmetry. exact (mapM_length _ _ _ Hm). }
    destruct keys as [ks'|]; [|discriminate].
    destruct (Nat.eqb (List.length ks') (List.length seqv)) eqn:H5;
      [|discriminate].
    intros Hs. injection Hs as <- <-. now apply Nat.eqb_eq.
Qed.

(** X12.  Whatever the arguments, a multivector that the constructor
    returns has as many values as keys, and each of its keys is in the
    key list of the grades it worked with.  (It does not check that
    the keys are distinct.) *)
Theorem constructor_invariant values keys name grades v :
  MultiVector_init A symbolcls sympify values keys name grades = Ok v ->
  exists gs,
    new_grades A grades = Ok gs
    /\ List.length (_keys v) = List.length (_values v)
    /\ forall k, In k (_keys v) -> In k (indices_for_grades A gs).
Proof.
  unfold MultiVector_init.
  destruct (new_grades A grades) as [gs|c msg]; simpl; [|discriminate].
  destruct (new_select A symbolcls values keys name gs)
    as [[ks vs]|c msg] eqn:Hs; simpl; [|discriminate].
  pose proof (new_select_length _ _ _ _ _ _ Hs) as Hl.
  destruct (if forallb is_int ks then Ok (map int_of ks)
            else mapM (resolve A) ks) as [ks'|c msg] eqn:Hk;
    simpl; [|discriminate].
  assert (Hl' : List.length ks' = List.length ks).
  { destruct (forallb is_int ks).
    - injection Hk as <-. apply length_map.
    - exact (mapM_length _ _ _ Hk). }
  destruct (forallb (fun k => mem k (indices_for_grades A gs)) ks')
    eqn:Hsub; [|discriminate].
  intros Hv. injection Hv as <-. exists gs. simpl.
  split; [reflexivity|]. split.
  - rewrite length_map. congruence.
  - intros k Hin. rewrite forallb_forall in Hsub.
    apply mem_In. now apply Hsub.
Qed.

(** X13.  A requested grade below 0 or above the dimension makes the
    constructor raise [ValueError], whatever else it is given. *)
Theorem constructor_rejects_bad_grade values keys name gs g :
  In g gs -> g < 0 \/ Z.of_N (d A) < g ->
  MultiVector_init A symbolcls sympify values keys name (Some gs)
  = Raise ValueError
      ("Each grade in `grades` needs to be a value between 0 and "
         ++ repr_int (Z.of_N (d A)) ++ ".").
Proof.
  intros Hin Hbad. unfold MultiVector_init, new_grades.
  destruct (forallb (fun g0 => (0 <=? g0) && (g0 <=? Z.of_N (d A))) gs)
    eqn:Hall; [|reflexivity].
  rewrite forallb_forall in Hall. specialize (Hall g Hin).
  apply andb_prop in Hall. destruct Hall as [H0 H1].
  apply Z.leb_le in H0, H1. lia.
Qed.

Lemma forallb_is_int_KInt (ks : list Z) :
  forallb is_int (map KInt ks) = true.
Proof. induction ks; simpl; auto. Qed.

Lemma int_of_KInt (ks : list Z) : map int_of (map KInt ks) = ks.
Proof. induction ks; simpl; congruence. Qed.

(** X14.  Keys and values taken from a multivector build it again: for
    a non-empty [v] with as many values as keys, all of them keys of
    the algebra, [MultiVector(algebra, values=v.values(), keys=v.keys())]
    is [v]. *)
Theorem constructor_rebuilds v :
  _keys v <> [] ->
  List.length (_keys v) = List.length (_values v) ->
  (forall k, In k (_keys v) ->
     In k (indices_for_grades A (every_grade A))) ->
  MultiVector_init A symbolcls sympify
    (ValuesSeq (map VExpr (_values v))) (Some (map KInt (_keys v)))
    EmptyString None
  = Ok v.
Proof.
  intros Hne Hl Hval. destruct v as [ks vs]. simpl in *.
  unfold MultiVector_init, new_grades. cbn [bind].
  fold (every_grade A). unfold new_select.
  assert (Hg : given (Some (map KInt ks)) = true).
  { destruct ks; [congruence | reflexivity]. }
  rewrite Hg. cbn [negb]. rewrite !andb_false_r.
  cbn [String.eqb negb andb].
  rewrite !length_map, Hl, Nat.eqb_refl. cbn [bind fst snd].
  rewrite forallb_is_int_KInt, int_of_KInt. cbn [bind].
  rewrite map_map. cbn. rewrite map_id.
  replace (forallb _ ks) with true; [reflexivity|].
  symmetry. apply forallb_forall. intros k Hk. apply mem_In. auto.
Qed.

(** X15.  On a mapping from integer keys to expressions and without
    requested grades the constructor is [MultiVector_new], whatever
    [keys] and [name] are: the empty mapping raises [ValueError], a
    key outside the algebra raises [ValueError], anything else gives
    the items of the mapping. *)
Theorem constructor_on_mapping (m : dict E) keys name :
  MultiVector_init A symbolcls sympify
    (ValuesMapping (map (fun kv => (KInt (fst kv), VExpr (snd kv))) m))
    keys name None
  = MultiVector_new A m.
Proof.
  destruct m as [|e m]; [reflexivity|].
  unfold MultiVector_new. cbv beta iota zeta.
  remember (e :: m) as l eqn:Hl.
  set (F := fun kv : Z * E => (KInt (fst kv), VExpr (snd kv))).
  unfold MultiVector_init, new_grades, new_select. cbn [bind].
  destruct (map F l) as [|p t] eqn:Hm; [subst l; discriminate|].
  rewrite <- Hm. cbn [bind fst snd].
  assert (Hf : map fst (map F l) = map KInt (map fst l))
    by (rewrite !map_map; reflexivity).
  assert (Hs : map snd (map F l) = map VExpr (map snd l))
    by (rewrite !map_map; reflexivity).
  rewrite Hf, Hs.
  rewrite forallb_is_int_KInt, int_of_KInt. cbn [bind].
  rewrite map_map. cbn. rewrite map_id. reflexivity.
Qed.

Lemma new_symbols_named name (idx : list Z) :
  (forall k, In k idx -> bin2canon A k <> None) ->
  mapM (new_symbol A symbolcls name) (map KInt idx)
  = Ok (map (fun k =>
               VExpr (symbolcls
                        (name ++ tail_string
                                   (match bin2canon A k with
                                    | Some s => s
                                    | None => EmptyString
                                    end))))
            idx).
Proof.
  induction idx as [|k idx IH]; intros Hall; simpl; auto.
  destruct (bin2canon A k) as [s|] eqn:Hb.
  - simpl. rewrite IH; [reflexivity|].
    intros k' Hk'. apply Hall. now right.
  - exfalso. apply (Hall k); simpl; auto.
Qed.

(** X16.  Without values and without keys: with a name the constructor
    makes one symbol per key of the requested grades, named by the
    name followed by the key's canonical name less its first
    character; without a name it raises [TypeError].  (The algebra is
    not empty and its keys are named.) *)
Theorem constructor_without_values name grades gs :
  new_grades A grades = Ok gs ->
  alg_len A <> 0 ->
  (forall k, In k (indices_for_grades A gs) -> bin2canon A k <> None) ->
  (name <> EmptyString ->
   MultiVector_init A symbolcls sympify (ValuesSeq []) None name grades
   = Ok (fromkeysvalues
           (indices_for_grades A gs)
           (map (fun k =>
                   symbolcls
                     (name ++ tail_string
                                (match bin2canon A k with
                                 | Some s => s
                                 | None => EmptyString
                                 end)))
                (indices_for_grades A gs))))
  /\ (indices_for_grades A gs <> [] ->
      MultiVector_init A symbolcls sympify (ValuesSeq []) None
                       EmptyString grades
      = Raise TypeError EmptyString).
Proof.
  intros Hg Hlen Hnamed. unfold MultiVector_init. rewrite Hg. cbn [bind].
  unfold new_select. cbn [List.length given negb Z.of_nat].
  replace (0 =? alg_len A) with false
    by (symmetry; apply Z.eqb_neq; congruence).
  cbn [andb]. rewrite !andb_true_r.
  assert (Hsub : forallb (fun k => mem k (indices_for_grades A gs))
                         (indices_for_grades A gs) = true).
  { apply forallb_forall. intros k Hk. now apply mem_In. }
  split.
  - intros Hname. apply String.eqb_neq in Hname.
    destruct (indices_for_grades A gs) as [|k idx] eqn:Hidx.
    + reflexivity.
    + cbn [List.length Nat.eqb]. rewrite Hname. cbn [negb Nat.eqb andb].
      rewrite new_symbols_named by assumption. cbn [bind fst snd].
      rewrite forallb_is_int_KInt, int_of_KInt. cbn [bind].
      rewrite Hsub. rewrite map_map. reflexivity.
  - intros Hne. destruct (indices_for_grades A gs) as [|k idx];
      [congruence|]. reflexivity.
Qed.
End Constructor.

(* ------------------------------------------------------------------ *)
(** ** The other derivations *)

Lemma disjoint_sum (u w : Z) : Z.land u w = 0 -> u + w = Z.lor u w.
Proof.
  intros Hd. rewrite Z.add_nocarry_lxor by assumption.
  now apply Z.lxor_lor.
Qed.

(** Addition from the bitwise operations: a sum is the exclusive or
    plus twice the carries. *)
Lemma add_lxor_land (a b : Z) : a + b = Z.lxor a b + 2 * Z.land a b.
Proof.
  assert (Ha : a = Z.ldiff a b + Z.land a b).
  { rewrite disjoint_sum.
    - symmetry. apply Z.lor_ldiff_and.
    - apply Z.bits_inj'. intros n Hn.
      rewrite Z.land_spec, Z.ldiff_spec, Z.land_spec, Z.bits_0.
      destruct (Z.testbit a n), (Z.testbit b n); reflexivity. }
  assert (Hb : b = Z.ldiff b a + Z.land a b).
  { rewrite disjoint_sum.
    - apply Z.bits_inj'. intros n Hn.
      rewrite Z.lor_spec, Z.ldiff_spec, Z.land_spec.
      destruct (Z.testbit a n), (Z.testbit b n); reflexivity.
    - apply Z.bits_inj'. intros n Hn.
      rewrite Z.land_spec, Z.ldiff_spec, Z.land_spec, Z.bits_0.
      destruct (Z.testbit a n), (Z.testbit b n); reflexivity. }
  assert (Hx : Z.lxor a b = Z.ldiff a b + Z.ldiff b a).
  { rewrite disjoint_sum.
    - apply Z.bits_inj'. intros n Hn.
      rewrite Z.lxor_spec, Z.lor_spec, !Z.ldiff_spec.
      destruct (Z.testbit a n), (Z.testbit b n); reflexivity.
    - apply Z.bits_inj'. intros n Hn.
      rewrite Z.land_spec, !Z.ldiff_spec, Z.bits_0.
      destruct (Z.testbit a n), (Z.testbit b n); reflexivity. }
  lia.
Qed.

Lemma lc_test_is_containment (a b : Z) :
  (Z.lxor a b =? - (a - b)) = (Z.land a b =? a).
Proof.
  pose proof (add_lxor_land a b).
  destruct (Z.land a b =? a) eqn:Hl.
  - apply Z.eqb_eq in Hl. apply Z.eqb_eq. lia.
  - apply Z.eqb_neq in Hl. apply Z.eqb_neq. lia.
Qed.

Lemma rc_test_is_containment (a b : Z) :
  (Z.lxor a b =? a - b) = (Z.land a b =? b).
Proof.
  pose proof (add_lxor_land a b).
  destruct (Z.land a b =? b) eqn:Hl.
  - apply Z.eqb_eq in Hl. apply Z.eqb_eq. lia.
  - apply Z.eqb_neq in Hl. apply Z.eqb_neq. lia.
Qed.

Lemma op_test_is_disjointness (a b : Z) :
  (Z.lxor a b =? a + b) = (Z.land a b =? 0).
Proof.
  pose proof (add_lxor_land a b).
  destruct (Z.land a b =? 0) eqn:Hl.
  - apply Z.eqb_eq in Hl. apply Z.eqb_eq. lia.
  - apply Z.eqb_neq in Hl. apply Z.eqb_neq. lia.
Qed.

Lemma sp_test_is_equality (a b : Z) : (Z.lxor a b =? 0) = (a =? b).
Proof.
  destruct (a =? b) eqn:Hl.
  - apply Z.eqb_eq in Hl. subst. apply Z.eqb_eq. apply Z.lxor_nilpotent.
  - apply Z.eqb_neq in Hl. apply Z.eqb_neq. intros Hx.
    apply Z.lxor_eq in Hx. contradiction.
Qed.

Lemma ip_test_is_either_containment (a b : Z) :
  0 <= a -> 0 <= b ->
  (Z.lxor a b =? Z.abs (a - b))
  = ((Z.land a b =? a) || (Z.land a b =? b)).
Proof.
  intros Ha Hb. pose proof (add_lxor_land a b) as Hid.
  assert (Hx : 0 <= Z.lxor a b) by (apply Z.lxor_nonneg; tauto).
  assert (Hl : 0 <= Z.land a b) by (apply Z.land_nonneg; tauto).
  destruct (Z.eqb_spec (Z.land a b) a) as [H1|H1];
    destruct (Z.eqb_spec (Z.land a b) b) as [H2|H2]; cbn [orb];
    try (apply Z.eqb_eq; lia); apply Z.eqb_neq; lia.
Qed.

Lemma dict_del_get_same {V : Type} (k : Z) (m : dict V) :
  dict_get k (dict_del k m) = None.
Proof.
  induction m as [|[k' v] m IH]; simpl; auto.
  destruct (k' =? k) eqn:Hk; simpl; auto. now rewrite Hk.
Qed.

Lemma dict_del_get_other {V : Type} (k k' : Z) (m : dict V) :
  k <> k' -> dict_get k (dict_del k' m) = dict_get k m.
Proof.
  intros Hne. induction m as [|[k1 v] m IH]; simpl; auto.
  destruct (k1 =? k') eqn:H1; simpl.
  - apply Z.eqb_eq in H1. subst k1.
    destruct (k' =? k) eqn:Hk; auto. apply Z.eqb_eq in Hk. congruence.
  - destruct (k1 =? k); auto.
Qed.

Section OtherDerivations.
Context {E : Type} `{Backend E}.
Variable A : Algebra E.
Variable swaps : Z -> Z -> Z.
Variable sub : E -> E -> E.
Variable multivector_vals : dict E -> result (MultiVector E).
Implicit Types (x y : MultiVector E) (mx my res : dict E).

Lemma pair_step_get sel coef k res (p : (Z * E) * (Z * E)) :
  dict_get k (pair_step sel coef res p)
  = if pair_selected sel k p
    then Some (add (from_zero (dict_get k res)) (pair_term coef p))
    else dict_get k res.
Proof.
  unfold pair_step, pair_selected.
  destruct (sel (fst (fst p)) (fst (snd p))); simpl; auto.
  destruct (Z.lxor (fst (fst p)) (fst (snd p)) =? k) eqn:Hk.
  - apply Z.eqb_eq in Hk. subst k. apply dict_get_set_same.
  - apply Z.eqb_neq in Hk. apply dict_get_set_other. congruence.
Qed.

Lemma pair_fold_get sel coef k (l : list ((Z * E) * (Z * E))) :
  forall res,
    dict_get k (fold_left (pair_step sel coef) l res)
    = slot (dict_get k res)
           (map (pair_term coef) (filter (pair_selected sel k) l)).
Proof.
  induction l as [|p l IH]; intros res; simpl; auto.
  rewrite IH, pair_step_get.
  destruct (pair_selected sel k p); simpl; auto.
  destruct (map (pair_term coef) (filter (pair_selected sel k) l));
    reflexivity.
Qed.

Lemma pair_fold_NoDup sel coef (l : list ((Z * E) * (Z * E))) :
  forall res, NoDup (dict_keys res) ->
              NoDup (dict_keys (fold_left (pair_step sel coef) l res)).
Proof.
  induction l as [|p l IH]; intros res Hnd; simpl; auto.
  apply IH. unfold pair_step.
  destruct (sel (fst (fst p)) (fst (snd p))); auto using dict_set_NoDup.
Qed.

(** Dropping the zeros of an accumulation of selected pairs. *)
Lemma pair_entries sel coef mx my k :
  dict_get k (drop_zeros
                (fold_left (pair_step sel coef) (product mx my) []))
  = entry_of (pair_terms sel coef mx my k).
Proof.
  rewrite drop_zeros_get by (apply pair_fold_NoDup; constructor).
  rewrite pair_fold_get, product_list_prod.
  unfold pair_terms, entry_of, slot.
  destruct (map (pair_term coef)
              (filter (pair_selected sel k) (list_prod mx my)));
    reflexivity.
Qed.

(** Two selections that agree on the keys of the operands select the
    same terms. *)
Lemma pair_terms_ext sel1 sel2 coef mx my k :
  (forall ei ej, In ei (dict_keys mx) -> In ej (dict_keys my) ->
                 sel1 ei ej = sel2 ei ej) ->
  pair_terms sel1 coef mx my k = pair_terms sel2 coef mx my k.
Proof.
  intros Hsel. unfold pair_terms. f_equal. apply filter_ext_in.
  intros [[ei vi] [ej vj]] Hin. apply in_prod_iff in Hin.
  destruct Hin as [Hx Hy]. unfold pair_selected. simpl.
  rewrite (Hsel ei ej); auto.
  - apply (in_map fst) in Hx. exact Hx.
  - apply (in_map fst) in Hy. exact Hy.
Qed.

Lemma ip_step_pair diff_func res (p : (Z * E) * (Z * E)) :
  ip_step A diff_func res p
  = pair_step (fun ei ej => Z.lxor ei ej =? diff_func (ei - ej))
              (signs A) res p.
Proof. destruct p as [[ei vi] [ej vj]]. reflexivity. Qed.

Lemma op_step_pair res (p : (Z * E) * (Z * E)) :
  op_step swaps res p
  = pair_step (fun ei ej => Z.lxor ei ej =? ei + ej)
              (fun ei ej => (-1) ^ swaps ei ej) res p.
Proof. destruct p as [[ei vi] [ej vj]]. reflexivity. Qed.

Lemma fold_left_ext {X Y : Type} (f g : X -> Y -> X) (l : list Y) :
  (forall a b, f a b = g a b) ->
  forall a, fold_left f l a = fold_left g l a.
Proof.
  intros Hfg. induction l as [|b l IH]; intros a; simpl; auto.
  now rewrite Hfg, IH.
Qed.

Lemma ip_loop_get mx my diff_func k :
  dict_get k (drop_zeros (ip_accumulate A diff_func mx my))
  = entry_of
      (pair_terms (fun ei ej => Z.lxor ei ej =? diff_func (ei - ej))
                  (signs A) mx my k).
Proof.
  unfold ip_accumulate.
  rewrite (fold_left_ext _ _ _ (ip_step_pair diff_func)).
  apply pair_entries.
Qed.

Lemma op_loop_get mx my k :
  dict_get k (drop_zeros (op_accumulate swaps mx my))
  = entry_of
      (pair_terms (fun ei ej => Z.lxor ei ej =? ei + ej)
                  (fun ei ej => (-1) ^ swaps ei ej) mx my k).
Proof.
  unfold op_accumulate.
  rewrite (fold_left_ext _ _ _ op_step_pair).
  apply pair_entries.
Qed.

(** X17.  The loop of [codegen_ip] selects by containment of blades
    under the difference functions of the contractions.  Run on two
    mappings with the function of [codegen_lc], it leaves under [k]
    the simplified sum of [sign(ei, ej) * vi * vj] over the pairs
    with every basis vector of [ei] in [ej] and [ei XOR ej = k]; with
    the function of [codegen_rc], over the pairs with every basis
    vector of [ej] in [ei].  The sign is not tested, and a sum that
    simplifies to zero leaves no entry. *)
Theorem contractions_select_by_containment mx my k :
  dict_get k (drop_zeros (ip_accumulate A (fun z => - z) mx my))
  = entry_of
      (pair_terms (fun ei ej => Z.land ei ej =? ei) (signs A) mx my k)
  /\ dict_get k (drop_zeros (ip_accumulate A (fun z => z) mx my))
     = entry_of
         (pair_terms (fun ei ej => Z.land ei ej =? ej) (signs A) mx my k).
Proof.
  rewrite !ip_loop_get. split; f_equal; apply pair_terms_ext;
    intros ei ej _ _.
  - apply lc_test_is_containment.
  - apply rc_test_is_containment.
Qed.

(** X18.  On mappings with non-negative keys the loop of [codegen_ip]
    with its default difference function [abs] keeps the pairs in
    which one blade contains the other. *)
Theorem inner_product_selects_nested_blades mx my k :
  nonneg_keys mx = true -> nonneg_keys my = true ->
  dict_get k (drop_zeros (ip_accumulate A Z.abs mx my))
  = entry_of
      (pair_terms (fun ei ej => (Z.land ei ej =? ei) || (Z.land ei ej =? ej))
                  (signs A) mx my k).
Proof.
  intros Hx Hy. rewrite ip_loop_get.
  f_equal. apply pair_terms_ext. intros ei ej Hei Hej.
  unfold nonneg_keys in *. rewrite forallb_forall in Hx, Hy.
  apply ip_test_is_either_containment.
  - apply Z.leb_le. now apply Hx.
  - apply Z.leb_le. now apply Hy.
Qed.

(** X19.  With the difference function of [codegen_sp] the loop
    leaves no entry outside the scalar slot, and its entry under 0
    sums the pairs of equal keys. *)
Theorem scalar_product_is_scalar mx my :
  (forall k, k <> 0 ->
             dict_get k (drop_zeros (ip_accumulate A (fun _ => 0) mx my))
             = None)
  /\ dict_get 0 (drop_zeros (ip_accumulate A (fun _ => 0) mx my))
     = entry_of (pair_terms (fun ei ej => ei =? ej) (signs A) mx my 0).
Proof.
  split.
  - intros k Hk. rewrite ip_loop_get.
    replace (pair_terms _ (signs A) mx my k) with (@nil E); [reflexivity|].
    symmetry. unfold pair_terms.
    rewrite filter_rejects_all; [reflexivity|].
    intros [[ei vi] [ej vj]] _. unfold pair_selected. simpl.
    destruct (Z.lxor ei ej =? 0) eqn:H0; simpl; auto.
    apply Z.eqb_eq in H0. rewrite H0. apply Z.eqb_neq. congruence.
  - rewrite ip_loop_get. f_equal. apply pair_terms_ext.
    intros ei ej _ _. apply sp_test_is_equality.
Qed.

(** X20.  The loop of [codegen_op] keeps the pairs of blades that
    share no basis vector, with the sign [(-1) ** swaps[ei, ej]]; and
    when every key of the first mapping shares a basis vector with
    every key of the second the result is empty: in particular for
    [e ^ e], [e] any blade other than the scalar. *)
Theorem outer_product_selects_disjoint_blades mx my :
  (forall k,
      dict_get k (drop_zeros (op_accumulate swaps mx my))
      = entry_of
          (pair_terms (fun ei ej => Z.land ei ej =? 0)
                      (fun ei ej => (-1) ^ swaps ei ej) mx my k))
  /\ ((forall ei ej, In ei (dict_keys mx) -> In ej (dict_keys my) ->
                     Z.land ei ej <> 0) ->
      drop_zeros (op_accumulate swaps mx my) = []).
Proof.
  assert (Hget : forall k,
             dict_get k (drop_zeros (op_accumulate swaps mx my))
             = entry_of
                 (pair_terms (fun ei ej => Z.land ei ej =? 0)
                             (fun ei ej => (-1) ^ swaps ei ej) mx my k)).
  { intros k. rewrite op_loop_get. f_equal. apply pair_terms_ext.
    intros ei ej _ _. apply op_test_is_disjointness. }
  split; [exact Hget|]. intros Hshare.
  destruct (drop_zeros (op_accumulate swaps mx my)) as [|[k e] m] eqn:Hm;
    auto.
  exfalso. specialize (Hget k). simpl in Hget. rewrite Z.eqb_refl in Hget.
  replace (pair_terms _ _ mx my k) with (@nil E) in Hget; [discriminate|].
  symmetry. unfold pair_terms.
  rewrite filter_rejects_all; [reflexivity|].
  intros [[ei vi] [ej vj]] Hin. apply in_prod_iff in Hin.
  destruct Hin as [Hx Hy]. unfold pair_selected. simpl.
  replace (Z.land ei ej =? 0) with false; [reflexivity|].
  symmetry. apply Z.eqb_neq. apply Hshare.
  - apply (in_map fst) in Hx. exact Hx.
  - apply (in_map fst) in Hy. exact Hy.
Qed.

Lemma cp_step_get k (xy : dict E) (kv : Z * E) :
  dict_get k (cp_step sub xy kv)
  = if fst kv =? k then cp_merge sub (dict_get k xy) (Some (snd kv))
    else dict_get k xy.
Proof.
  destruct kv as [k1 v1]. unfold cp_step. simpl.
  destruct (k1 =? k) eqn:Hk.
  - apply Z.eqb_eq in Hk. subst k1.
    destruct (dict_get k xy) as [a|]; simpl.
    + destruct (truthy (sub a v1)).
      * apply dict_get_set_same.
      * apply dict_del_get_same.
    + apply dict_get_set_same.
  - apply Z.eqb_neq in Hk.
    destruct (dict_get k1 xy) as [a|].
    + destruct (truthy (sub a v1)).
      * apply dict_get_set_other. congruence.
      * apply dict_del_get_other. congruence.
    + apply dict_get_set_other. congruence.
Qed.

(** X21.  The loop of [codegen_cp] cancels key by key.  Run over the
    items of a mapping [yx] without repeated keys, it leaves in [xy]
    under a key of both the difference [xy[k] - yx[k]], or nothing
    when that difference is falsy; under a key of [xy] alone its
    value; under a key of [yx] alone the negation of its value. *)
Theorem commutator_cancels_per_key (xy yx : dict E) :
  NoDup (dict_keys yx) ->
  forall k, dict_get k (fold_left (cp_step sub) yx xy)
            = cp_merge sub (dict_get k xy) (dict_get k yx).
Proof.
  intros Hnd k. revert xy Hnd.
  induction yx as [|[k1 v1] yx IH]; intros xy Hnd; simpl.
  - destruct (dict_get k xy); reflexivity.
  - inversion Hnd as [|? ? Hnin Hnd']; subst.
    rewrite IH by assumption. rewrite cp_step_get. simpl.
    destruct (k1 =? k) eqn:Hk.
    + apply Z.eqb_eq in Hk. subst k1.
      rewrite (proj1 (dict_get_None k yx) Hnin).
      destruct (cp_merge sub (dict_get k xy) (Some v1)); reflexivity.
    + reflexivity.
Qed.

(** X22.  No derivation that reads [vals] gets past that read.  The
    inner product and its three specializations, the outer product,
    the sandwich and the projection raise [AttributeError] for every
    pair of multivectors; the commutator does as soon as [y / 2] is
    formed, and the regressive product as soon as both duals are. *)
Theorem derivations_stop_at_vals x y (symbolic : bool)
    (diff_func : Z -> Z) :
  codegen_ip A x y diff_func symbolic = Raise AttributeError EmptyString
  /\ codegen_lc A x y = Raise AttributeError EmptyString
  /\ codegen_rc A x y = Raise AttributeError EmptyString
  /\ codegen_sp A x y = Raise AttributeError EmptyString
  /\ codegen_op A swaps x y symbolic = Raise AttributeError EmptyString
  /\ codegen_conj A multivector_vals x y symbolic
     = Raise AttributeError EmptyString
  /\ codegen_proj A x y = Raise AttributeError EmptyString
  /\ (forall y_half,
        mv_truediv A y (OpScalar (of_int 2)) = Ok y_half ->
        codegen_cp A sub x y = Raise AttributeError EmptyString)
  /\ (forall x_dual y_dual,
        dual A x "auto" = Ok x_dual -> dual A y "auto" = Ok y_dual ->
        codegen_rp A swaps x y = Raise AttributeError EmptyString).
Proof.
  repeat split.
  - intros y_half Hy. unfold codegen_cp. now rewrite Hy.
  - intros x_dual y_dual Hx Hy. unfold codegen_rp. now rewrite Hx, Hy.
Qed.

(** X23.  In an algebra with a number of degenerate dimensions other
    than 0 and 1 the regressive product cannot be derived: the dual of
    its first operand raises. *)
Theorem regressive_product_needs_a_dual x y :
  r A <> 0%N -> r A <> 1%N ->
  codegen_rp A swaps x y
  = Raise Exception
      "Cannot select a suitable dual in auto mode for this algebra.".
Proof.
  intros H0 H1. apply N.eqb_neq in H0, H1.
  unfold codegen_rp, dual. simpl. now rewrite H0, H1.
Qed.

(** X24.  The inverse of a multivector that is already purely scalar
    (its only key is 0) or empty is not computed: the loop is not
    entered and the result is formed from an adjoint that was never
    bound. *)
Theorem inverse_of_scalar_raises x (fuel : nat) :
  _keys x = [0] \/ (_keys x = [] /\ _values x = []) ->
  codegen_inv A (S fuel) x = Some (Raise UnboundLocalError EmptyString).
Proof.
  intros Hx. unfold codegen_inv. cbn [inv_loop].
  replace (loop_test x) with false; [reflexivity|].
  symmetry. unfold loop_test, grades, len.
  destruct Hx as [Hk|[Hk Hv]].
  - rewrite Hk. reflexivity.
  - rewrite Hk, Hv. reflexivity.
Qed.

(** X26.  The loop and the comprehension of [codegen_gp], run on two
    mappings: under each key [k] the result holds the simplified sum
    of the terms [sign(ei, ej) * vi * vj] of the pairs of entries
    with non-zero sign and [ei XOR ej = k], and no entry at all for a
    key whose sum simplifies to zero or that no pair contributes to;
    every stored expression is non-zero and no key is stored
    twice. *)
Theorem gp_loop_accumulates_and_drops_zeros mx my :
  (forall k, dict_get k (drop_zeros (gp_accumulate A mx my))
             = gp_entry A mx my k)
  /\ Forall (fun kv => truthy (snd kv) = true)
            (drop_zeros (gp_accumulate A mx my))
  /\ NoDup (dict_keys (drop_zeros (gp_accumulate A mx my))).
Proof.
  repeat split.
  - intros k. rewrite drop_zeros_get by apply gp_accumulate_NoDup.
    rewrite gp_accumulate_get. unfold gp_entry.
    destruct (gp_terms A mx my k); reflexivity.
  - unfold drop_zeros.
    apply (dict_comp_Forall (fun e => truthy e = true)).
    intros k e k' w. destruct (truthy (simplify e)) eqn:Ht; congruence.
  - apply dict_comp_NoDup.
Qed.

(** X27.  [codegen_inv] returns an inverse for no multivector.  A
    call that is allowed at least one test of the loop ends by
    raising: when the first pass forms its adjoint, with the
    [AttributeError] of the read [adj_x.vals]; when the read of the
    scalar part or the division raises, with that exception; and when
    no pass is made, with [UnboundLocalError]. *)
Theorem inverse_always_raises x (fuel : nat) :
  (exists c msg, codegen_inv A (S fuel) x = Some (Raise c msg))
  /\ (loop_test x = true ->
      forall adj, inv_adjoint A x 1 = Ok adj ->
                  codegen_inv A (S fuel) x
                  = Some (Raise AttributeError EmptyString))
  /\ (loop_test x = true ->
      forall c msg, inv_adjoint A x 1 = Raise c msg ->
                    codegen_inv A (S fuel) x = Some (Raise c msg))
  /\ (loop_test x = false ->
      codegen_inv A (S fuel) x
      = Some (Raise UnboundLocalError EmptyString)).
Proof.
  assert (Hok : loop_test x = true ->
                forall adj, inv_adjoint A x 1 = Ok adj ->
                            codegen_inv A (S fuel) x
                            = Some (Raise AttributeError EmptyString)).
  { intros Ht adj Ha. apply codegen_inv_first_pass; auto.
    now apply (inv_body_after_adjoint A x x 1 adj). }
  assert (Hraise : loop_test x = true ->
                   forall c msg, inv_adjoint A x 1 = Raise c msg ->
                                 codegen_inv A (S fuel) x
                                 = Some (Raise c msg)).
  { intros Ht c msg Ha. apply codegen_inv_first_pass; auto.
    now apply inv_body_before_adjoint. }
  split; [|split; [exact Hok | split; [exact Hraise|]]].
  - destruct (loop_test x) eqn:Ht.
    + destruct (inv_adjoint A x 1) as [adj|c msg] eqn:Ha.
      * do 2 eexists. now apply (Hok eq_refl adj).
      * exists c, msg. now apply Hraise.
    + do 2 eexists. now apply codegen_inv_without_pass.
  - apply codegen_inv_without_pass.
Qed.
End OtherDerivations.

(* ------------------------------------------------------------------ *)
(** ** Order of the operands of an addition *)

Section AdditionOrder.
Context {E : Type} `{Backend E}.
Implicit Types (x y : MultiVector E).

(** X25.  [x + y] and [y + x] store the same keys, and the same value
    under each key as soon as the two coefficients of a shared key add
    up to the same in either order; but each lists the keys of its
    left operand first, so the two results can differ as values. *)
Theorem add_commutes_up_to_key_order x y :
  well_formed x = true -> well_formed y = true ->
  (forall k, In k (_keys (mv_add x (OpMV y)))
             <-> In k (_keys (mv_add y (OpMV x))))
  /\ ((forall k a b, dict_get k (items x) = Some a ->
                     dict_get k (items y) = Some b -> add a b = add b a) ->
      forall k, dict_get k (items (mv_add x (OpMV y)))
                = dict_get k (items (mv_add y (OpMV x))))
  /\ (forall kx ky, hd_error (_keys x) = Some kx ->
                    hd_error (_keys y) = Some ky ->
                    hd_error (_keys (mv_add x (OpMV y))) = Some kx
                    /\ hd_error (_keys (mv_add y (OpMV x))) = Some ky).
Proof.
  intros Hx Hy. split; [|split].
  - assert (Hone : forall u w, well_formed u = true ->
              well_formed w = true ->
              forall k, In k (_keys (mv_add u (OpMV w)))
                        <-> In k (_keys u) \/ In k (_keys w)).
    { intros u w Hu Hw' k. rewrite mv_add_keys by assumption.
      rewrite in_app_iff, filter_In. split.
      - tauto.
      - intros [Hin|Hin]; auto.
        destruct (mem k (_keys u)) eqn:Hm.
        + left. now apply mem_In.
        + right. split; [exact Hin | reflexivity]. }
    intros k. rewrite !Hone by assumption. tauto.
  - intros Hcomm k. rewrite !mv_add_items_get by assumption.
    destruct (dict_get k (items x)) as [a|] eqn:Ha;
      destruct (dict_get k (items y)) as [b|] eqn:Hb; simpl; auto.
    f_equal. now apply (Hcomm k).
  - intros kx ky Hkx Hky. rewrite !mv_add_keys by assumption.
    destruct (_keys x) as [|k1 l1]; [discriminate|].
    destruct (_keys y) as [|k2 l2]; [discriminate|].
    simpl in *. now split.
Qed.
End AdditionOrder.


(* ------------------------------------------------------------------ *)
(** ** The further properties on concrete inputs *)

Lemma arithmetic_keeps_invariant_witness :
  well_formed (mv_neg (fromkeysvalues [1; 6] [2#1; 3#1])) = true
  /\ well_formed (mv_invert (fromkeysvalues [1; 6] [2#1; 3#1])) = true.
Proof.
  apply (proj2 (proj2 (arithmetic_keeps_invariant
                         (fromkeysvalues [1; 6] [2#1; 3#1])
                         (OpScalar (0#1))))).
  reflexivity.
Defined.

Lemma sub_merges_negated_witness :
  _keys (mv_sub (fromkeysvalues [1; 6] [2#1; 3#1])
                (OpMV (fromkeysvalues [1; 6] [2#1; 3#1]))) = [1; 6]
  /\ dict_get 1 (items (mv_sub (fromkeysvalues [1; 6] [2#1; 3#1])
                               (OpMV (fromkeysvalues [1; 6] [2#1; 3#1]))))
     = Some (0#1).
Proof.
  destruct (sub_merges_negated (fromkeysvalues [1; 6] [2#1; 3#1])
              (fromkeysvalues [1; 6] [2#1; 3#1]) eq_refl eq_refl)
    as (Hg & _ & Hk).
  split; [exact Hk|]. rewrite Hg. reflexivity.
Defined.

(** Reverting [2 e1 + 3 e23] negates the bivector part only. *)
Lemma reversion_sign_by_grade_witness :
  items (mv_invert (fromkeysvalues [1; 6] [2#1; 3#1]))
  = [(1, 2#1); (6, -3#1)].
Proof.
  destruct (reversion_sign_by_grade (fromkeysvalues [1; 6] [2#1; 3#1])
              eq_refl) as [_ Hi].
  rewrite Hi. reflexivity.
Defined.

Lemma reversion_involution_witness :
  mv_invert (mv_invert (fromkeysvalues [1; 6] [2#1; 3#1]))
  = fromkeysvalues [1; 6] [2#1; 3#1].
Proof.
  apply reversion_involution; [reflexivity|].
  intros k c Hin. simpl in Hin.
  destruct Hin as [Heq|[Heq|[]]]; injection Heq as <- <-; reflexivity.
Defined.

Lemma name_reads_like_key_witness :
  getitem space (fromkeysvalues [1; 6] [2#1; 3#1]) (KStr "e23")
  = getitem space (fromkeysvalues [1; 6] [2#1; 3#1]) (KInt 6)
  /\ contains space (fromkeysvalues [1; 6] [2#1; 3#1]) (KStr "e23")
     = contains space (fromkeysvalues [1; 6] [2#1; 3#1]) (KInt 6).
Proof.
  apply (name_reads_like_key space (fromkeysvalues [1; 6] [2#1; 3#1])
           "e23" 6); [reflexivity | discriminate].
Defined.

Lemma membership_and_indexing_agree_witness :
  contains space (fromkeysvalues [1; 6] [2#1; 3#1]) (KStr "e23") = Ok true.
Proof.
  exact (proj1 (membership_and_indexing_agree space
                  (fromkeysvalues [1; 6] [2#1; 3#1]) (KStr "e23") 6
                  eq_refl eq_refl)).
Defined.

(** A numeric multivector is handed back; one with the symbol [a] in a
    coefficient cannot be called. *)
Lemma call_returns_self_or_raises_witness :
  mv_call term_plane hand_back
          (fromkeysvalues [1; 2] [TNum (2#1); TNum (3#1)]) []
  = Ok (fromkeysvalues [1; 2] [TNum (2#1); TNum (3#1)])
  /\ mv_call term_plane hand_back
             (fromkeysvalues [1; 2] [TSym "a"; TNum (3#1)]) [TNum (5#1)]
     = Raise AttributeError EmptyString.
Proof.
  split.
  - apply (proj1 (call_returns_self_or_raises term_plane hand_back
                    (fromkeysvalues [1; 2] [TNum (2#1); TNum (3#1)]) []
                    ltac:(discriminate) ltac:(intros c _; discriminate))).
    intros c Hc. simpl in Hc. destruct Hc as [<-|[<-|[]]]; reflexivity.
  - apply (proj2 (call_returns_self_or_raises term_plane hand_back
                    (fromkeysvalues [1; 2] [TSym "a"; TNum (3#1)])
                    [TNum (5#1)]
                    ltac:(discriminate) ltac:(intros c _; discriminate))).
    exists (TSym "a"), ["a"%string], "a"%string. simpl. auto.
Defined.

Lemma dual_unknown_kind_raises_witness :
  dual space (fromkeysvalues [1] [2#1]) "poincare"
  = Raise ValueError "No dual found for kind=poincare."
  /\ undual space (fromkeysvalues [1] [2#1]) "poincare"
     = Raise ValueError "No undual found for kind=poincare.".
Proof.
  apply (dual_unknown_kind_raises space (fromkeysvalues [1] [2#1])
           "poincare"); discriminate.
Defined.

(** The vector part of [2 e1 + 3 e23] is [2 e1]. *)
Lemma grade_keeps_stored_entries_witness :
  exists w,
    grade space (fromkeysvalues [1; 6] [2#1; 3#1]) (GInt 1) = Ok w
    /\ well_formed w = true
    /\ _keys w = [1].
Proof.
  destruct (grade_keeps_stored_entries space
              (fromkeysvalues [1; 6] [2#1; 3#1]) (GInt 1) eq_refl)
    as [w (Hg & Hw & Hk & _)].
  - apply distinct_NoDup. reflexivity.
  - intros k _ Hk. simpl in Hk.
    destruct Hk as [<-|[<-|[]]]; discriminate.
  - exists w. split; [exact Hg|]. split; [exact Hw|].
    rewrite Hk. reflexivity.
Defined.

Lemma grade_idempotent_witness :
  exists w,
    grade space (fromkeysvalues [1; 6] [2#1; 3#1]) (GSeq [1; 2]) = Ok w
    /\ grade space w (GSeq [1; 2]) = Ok w.
Proof.
  apply (grade_idempotent space (fromkeysvalues [1; 6] [2#1; 3#1])
           (GSeq [1; 2]) eq_refl).
  - apply distinct_NoDup. reflexivity.
  - intros k _ Hk. simpl in Hk.
    destruct Hk as [<-|[<-|[]]]; discriminate.
Defined.

(** With one degenerate direction, the Hodge dual of [2 e1 + 3 e23] is
    [2 e23 + 3 e1], and the undual of that is the multivector again. *)
Lemma hodge_round_trip_witness :
  exists w,
    dual degenerate_plane (fromkeysvalues [1; 6] [2#1; 3#1]) "hodge" = Ok w
    /\ _keys w = [6; 1]
    /\ undual degenerate_plane w "hodge"
       = Ok (fromkeysvalues [1; 6] [2#1; 3#1]).
Proof.
  destruct (hodge_round_trip degenerate_plane
              (fromkeysvalues [1; 6] [2#1; 3#1]))
    as [w (Hd & Hk & _ & Hu)].
  - intros m. reflexivity.
  - reflexivity.
  - discriminate.
  - intros k Hk. simpl in Hk.
    destruct Hk as [<-|[<-|[]]]; split; reflexivity.
  - exists w. split; [exact Hd|]. split; [exact Hk|]. apply Hu.
    intros kv Hin. simpl in Hin.
    destruct Hin as [<-|[<-|[]]]; reflexivity.
Defined.

Lemma constructor_invariant_witness :
  List.length (_keys (fromkeysvalues [1; 3] [TSym "x"; TNum (2#1)]))
  = List.length (_values (fromkeysvalues [1; 3] [TSym "x"; TNum (2#1)]))
  /\ forall k, In k [1; 3] ->
               In k (indices_for_grades term_plane [0; 1; 2]).
Proof.
  destruct (constructor_invariant term_plane TSym TSym
              (ValuesSeq [VExpr (TSym "x"); VExpr (TNum (2#1))])
              (Some [KStr "e1"; KInt 3]) EmptyString None
              (fromkeysvalues [1; 3] [TSym "x"; TNum (2#1)]) eq_refl)
    as [gs (Hg & Hl & Hin)].
  injection Hg as <-. split; [exact Hl | exact Hin].
Defined.

Lemma constructor_rejects_bad_grade_witness :
  MultiVector_init term_plane TSym TSym (ValuesSeq []) None "a" (Some [3])
  = Raise ValueError
      "Each grade in `grades` needs to be a value between 0 and 2.".
Proof.
  apply (constructor_rejects_bad_grade term_plane TSym TSym
           (ValuesSeq []) None "a" [3] 3).
  - simpl. auto.
  - right. reflexivity.
Defined.

Lemma constructor_rebuilds_witness :
  MultiVector_init term_plane TSym TSym
    (ValuesSeq [VExpr (TSym "x"); VExpr (TNum (2#1))])
    (Some [KInt 1; KInt 3]) EmptyString None
  = Ok (fromkeysvalues [1; 3] [TSym "x"; TNum (2#1)]).
Proof.
  apply (constructor_rebuilds term_plane TSym TSym
           (fromkeysvalues [1; 3] [TSym "x"; TNum (2#1)])).
  - discriminate.
  - reflexivity.
  - intros k Hk. apply mem_In. simpl in Hk.
    destruct Hk as [<-|[<-|[]]]; reflexivity.
Defined.

(** A symbolic vector of the plane named [a]: coefficients [a1], [a2]. *)
Lemma constructor_without_values_witness :
  MultiVector_init term_plane TSym TSym (ValuesSeq []) None "a" (Some [1])
  = Ok (fromkeysvalues [1; 2] [TSym "a1"; TSym "a2"]).
Proof.
  apply (proj1 (constructor_without_values term_plane TSym TSym
                  "a" (Some [1]) [1] eq_refl ltac:(discriminate)
                  ltac:(intros k Hk; simpl in Hk;
                        destruct Hk as [<-|[<-|[]]]; discriminate))).
  discriminate.
Defined.

(** [e1] contracted onto [e12] from the left is [e2]; [e12] contracted
    by [e1] from the right is [-e2]. *)
Lemma contractions_select_by_containment_witness :
  dict_get 2 (drop_zeros (ip_accumulate space (fun x => - x)
                                        [(1, 2#1)] [(3, 5#1)]))
  = Some (10#1)
  /\ dict_get 2 (drop_zeros (ip_accumulate space (fun x => x)
                                           [(3, 5#1)] [(1, 2#1)]))
     = Some (-10#1).
Proof.
  split.
  - rewrite (proj1 (contractions_select_by_containment space
                      [(1, 2#1)] [(3, 5#1)] 2)).
    reflexivity.
  - rewrite (proj2 (contractions_select_by_containment space
                      [(3, 5#1)] [(1, 2#1)] 2)).
    reflexivity.
Defined.

(** [e1 . e12]: the vector is contained in the bivector. *)
Lemma inner_product_selects_nested_blades_witness :
  dict_get 2 (drop_zeros (ip_accumulate space Z.abs [(1, 2#1)] [(3, 5#1)]))
  = Some (10#1).
Proof.
  rewrite (inner_product_selects_nested_blades space
             [(1, 2#1)] [(3, 5#1)] 2 eq_refl eq_refl).
  reflexivity.
Defined.

(** The scalar product of [2 e1 + e12] and [5 e1 + 7 e2]: the pair of
    equal keys gives 10 in the scalar slot, nothing lands on [e12]. *)
Lemma scalar_product_is_scalar_witness :
  dict_get 3 (drop_zeros (ip_accumulate space (fun _ => 0)
                                        [(1, 2#1); (3, 1#1)]
                                        [(1, 5#1); (2, 7#1)]))
  = None
  /\ dict_get 0 (drop_zeros (ip_accumulate space (fun _ => 0)
                                           [(1, 2#1); (3, 1#1)]
                                           [(1, 5#1); (2, 7#1)]))
     = Some (10#1).
Proof.
  destruct (scalar_product_is_scalar space [(1, 2#1); (3, 1#1)]
              [(1, 5#1); (2, 7#1)]) as [Hout Hzero].
  split.
  - apply Hout. discriminate.
  - rewrite Hzero. reflexivity.
Defined.

(** [e1 ^ e1] is empty, while [e2 ^ e1] is [-6 e12]. *)
Lemma outer_product_selects_disjoint_blades_witness :
  drop_zeros (op_accumulate space_swaps [(1, 2#1)] [(1, 3#1)]) = []
  /\ dict_get 3 (drop_zeros (op_accumulate space_swaps
                                           [(2, 2#1)] [(1, 3#1)]))
     = Some (-6#1).
Proof.
  split.
  - apply (proj2 (outer_product_selects_disjoint_blades space_swaps
                    [(1, 2#1)] [(1, 3#1)])).
    intros ei ej Hi Hj. simpl in Hi, Hj.
    destruct Hi as [<-|[]]. destruct Hj as [<-|[]]. discriminate.
  - rewrite (proj1 (outer_product_selects_disjoint_blades space_swaps
                      [(2, 2#1)] [(1, 3#1)]) 3).
    reflexivity.
Defined.

(** Merging [yx = {0: 2, 3: -3, 5: 1}] into [xy = {0: 2, 3: 3}]: the
    scalar cancels and is deleted, [e12] holds 6, [e13] holds -1. *)
Lemma commutator_cancels_per_key_witness :
  fold_left (cp_step rational_sub) [(0, 2#1); (3, -3#1); (5, 1#1)]
            [(0, 2#1); (3, 3#1)]
  = [(3, 6#1); (5, -1#1)]
  /\ dict_get 0 (fold_left (cp_step rational_sub)
                           [(0, 2#1); (3, -3#1); (5, 1#1)]
                           [(0, 2#1); (3, 3#1)])
     = None.
Proof.
  split; [reflexivity|].
  rewrite (commutator_cancels_per_key rational_sub
             [(0, 2#1); (3, 3#1)] [(0, 2#1); (3, -3#1); (5, 1#1)]).
  - reflexivity.
  - apply distinct_NoDup. reflexivity.
Defined.

(** The commutator of [2 e1] and [4 e2] in space, where [y / 2] is
    formed, and the regressive product in the degenerate plane, where
    both duals are. *)
Lemma derivations_stop_at_vals_witness :
  codegen_cp space rational_sub (fromkeysvalues [1] [2#1])
             (fromkeysvalues [2] [4#1])
  = Raise AttributeError EmptyString
  /\ codegen_rp degenerate_plane space_swaps (fromkeysvalues [1] [2#1])
                (fromkeysvalues [2] [4#1])
     = Raise AttributeError EmptyString.
Proof.
  destruct (derivations_stop_at_vals space space_swaps rational_sub
              (fun _ => raise_ NotImplementedError)
              (fromkeysvalues [1] [2#1]) (fromkeysvalues [2] [4#1])
              false Z.abs) as (_ & _ & _ & _ & _ & _ & _ & Hcp & _).
  destruct (derivations_stop_at_vals degenerate_plane space_swaps
              rational_sub (fun _ => raise_ NotImplementedError)
              (fromkeysvalues [1] [2#1]) (fromkeysvalues [2] [4#1])
              false Z.abs) as (_ & _ & _ & _ & _ & _ & _ & _ & Hrp).
  split.
  - apply (Hcp (fromkeysvalues [2] [2#1])). reflexivity.
  - eapply Hrp; reflexivity.
Defined.

(** The scenarios of section 8 on the loop of the geometric product,
    and a cancellation: the square of [e1 + e2] has no [e12] part. *)
Lemma gp_loop_accumulates_and_drops_zeros_witness :
  dict_get 3 (drop_zeros (gp_accumulate space [(1, 2#1)] [(2, 3#1)]))
  = Some (6#1)
  /\ dict_get 0 (drop_zeros (gp_accumulate space [(1, 2#1)] [(1, 3#1)]))
     = Some (6#1)
  /\ dict_get 3 (drop_zeros (gp_accumulate space [(1, 1#1); (2, 1#1)]
                                           [(1, 1#1); (2, 1#1)]))
     = None.
Proof.
  split; [|split].
  - rewrite (proj1 (gp_loop_accumulates_and_drops_zeros space
                      [(1, 2#1)] [(2, 3#1)]) 3).
    reflexivity.
  - rewrite (proj1 (gp_loop_accumulates_and_drops_zeros space
                      [(1, 2#1)] [(1, 3#1)]) 0).
    reflexivity.
  - rewrite (proj1 (gp_loop_accumulates_and_drops_zeros space
                      [(1, 1#1); (2, 1#1)] [(1, 1#1); (2, 1#1)]) 3).
    reflexivity.
Defined.

(** The rotor-like [1 + e12] of space: the first pass forms its
    adjoint and stops at the read of [vals]. *)
Lemma inverse_always_raises_witness :
  codegen_inv space 5 (fromkeysvalues [0; 3] [1#1; 1#1])
  = Some (Raise AttributeError EmptyString).
Proof.
  apply (proj1 (proj2 (inverse_always_raises space
                         (fromkeysvalues [0; 3] [1#1; 1#1]) 4))
           eq_refl (fromkeysvalues [0; 3] [-3#1; 1#1])).
  reflexivity.
Defined.

Lemma regressive_product_needs_a_dual_witness :
  codegen_rp doubly_degenerate space_swaps (fromkeysvalues [1] [2#1])
             (fromkeysvalues [2] [4#1])
  = Raise Exception
      "Cannot select a suitable dual in auto mode for this algebra.".
Proof.
  apply (regressive_product_needs_a_dual doubly_degenerate space_swaps);
    discriminate.
Defined.

Lemma inverse_of_scalar_raises_witness :
  codegen_inv space 5 (fromkeysvalues [0] [2#1])
  = Some (Raise UnboundLocalError EmptyString).
Proof.
  apply (inverse_of_scalar_raises space (fromkeysvalues [0] [2#1]) 4).
  left. reflexivity.
Defined.

(** [(e1 + 5 e2) + (3 e3 - e1)] starts with the key 1, the sum the other
    way round with the key 4. *)
Lemma add_commutes_up_to_key_order_witness :
  hd_error (_keys (mv_add (fromkeysvalues [1; 2] [1#1; 5#1])
                          (OpMV (fromkeysvalues [4; 1] [3#1; -1#1]))))
  = Some 1
  /\ hd_error (_keys (mv_add (fromkeysvalues [4; 1] [3#1; -1#1])
                             (OpMV (fromkeysvalues [1; 2] [1#1; 5#1]))))
     = Some 4.
Proof.
  apply (proj2 (proj2 (add_commutes_up_to_key_order
                         (fromkeysvalues [1; 2] [1#1; 5#1])
                         (fromkeysvalues [4; 1] [3#1; -1#1])
                         eq_refl eq_refl))); reflexivity.
Defined.
